(** * Verification of three numeric exercises: guessNumber, arrangeCoins, mySqrt

    The three C++ functions are embedded as Rocq functions.  Machine
    integers are integers of [Z] with their two's-complement wrap-around
    written out; [double] is IEEE-754 binary64, taken from the executable
    specification [SpecFloat] of the standard library, so every
    floating-point operation of the sources is evaluated bit for bit; loops
    are fuelled iterations of their body. *)

From Stdlib Require Import ZArith List Lia Bool Reals Lra Sorted.
From Stdlib Require Import Floats.SpecFloat.
Import ListNotations.
Local Open Scope Z_scope.

(** ** Machine integers (LP64: [int] has 32 bits, [long] and [long long] 64) *)

Definition wrap (w z : Z) : Z := (z + 2 ^ (w - 1)) mod 2 ^ w - 2 ^ (w - 1).

Definition int_bits : Z := 32.
Definition long_bits : Z := 64.

Definition to_int : Z -> Z := wrap int_bits.
Definition to_long : Z -> Z := wrap long_bits.

Definition INT_MAX : Z := 2 ^ 31 - 1.
Definition INT_MIN : Z := - 2 ^ 31.
Definition LONG_MIN : Z := - 2 ^ 63.

(** ** [double]: IEEE-754 binary64, round to nearest even *)

Definition prec : Z := 53.
Definition emax : Z := 1024.

Definition double : Set := spec_float.

Definition dadd : double -> double -> double := SFadd prec emax.
Definition dsub : double -> double -> double := SFsub prec emax.
Definition dmul : double -> double -> double := SFmul prec emax.
Definition ddiv : double -> double -> double := SFdiv prec emax.
Definition dsqrt : double -> double := SFsqrt prec emax.

(** [a > b] on doubles. *)
Definition dgt (a b : double) : bool := SFltb b a.

(** Conversion of an integer to [double]. *)
Definition of_Z (z : Z) : double := binary_normalize prec emax z 0 false.

(** The literal [0.1], that is [0x1.999999999999ap-4]. *)
Definition d0_1 : double := S754_finite false 7205759403792794 (-56).

(** Truncation towards zero of a finite double. *)
Definition trunc (a : double) : option Z :=
  match a with
  | S754_zero _ => Some 0
  | S754_finite s m e => Some (cond_Zopp s (Z.shiftl (Zpos m) e))
  | _ => None
  end.

(** [int(a)] and the conversion to [long].  A value that does not fit is
    undefined behaviour in C++; the model gives what the x86-64 conversion
    instruction gives, the smallest integer of the type. *)
Definition double_to_int (a : double) : Z :=
  match trunc a with
  | Some z => if (INT_MIN <=? z) && (z <=? INT_MAX) then z else INT_MIN
  | None => INT_MIN
  end.

Definition double_to_long (a : double) : Z :=
  match trunc a with
  | Some z => if (LONG_MIN <=? z) && (z <? 2 ^ 63) then z else LONG_MIN
  | None => LONG_MIN
  end.

(** ** 374: guessNumber *)

(** [(left+right+1)/2] on [long]; C++ [/] truncates towards zero. *)
Definition mid_sum (left right : Z) : Z := to_long (to_long (left + right) + 1).
Definition midpoint (left right : Z) : Z := Z.quot (mid_sum left right) 2.

(** The locals of [guessNumber], and the arguments the oracle has been
    called with so far (oldest first). *)
Record gstate : Set := mk_gstate
  { left : Z; right : Z; c : Z; g : Z; calls : list Z }.

Section GuessNumber.

(** The forward-declared API [int guess(int num)]. *)
Variable guess : Z -> Z.

(** [long left=1,right=n,c=(left+right+1)/2; int g=guess(c);] *)
Definition guess_init (n : Z) : gstate :=
  let l := 1 in
  let r := to_long n in
  let c0 := midpoint l r in
  mk_gstate l r c0 (guess (to_int c0)) [to_int c0].

(** The body of [while(g!=0)]. *)
Definition guess_step (st : gstate) : gstate :=
  if g st =? 1 then
    let l := to_long (c st + 1) in
    let c' := midpoint l (right st) in
    mk_gstate l (right st) c' (guess (to_int c')) (calls st ++ [to_int c'])
  else if g st =? -1 then
    let r := to_long (c st - 1) in
    let c' := midpoint (left st) r in
    mk_gstate (left st) r c' (guess (to_int c')) (calls st ++ [to_int c'])
  else
    mk_gstate (left st) (right st) (c st) (guess (to_int (c st)))
              (calls st ++ [to_int (c st)]).

Fixpoint guess_loop (fuel : nat) (st : gstate) : option gstate :=
  match fuel with
  | O => None
  | S k => if g st =? 0 then Some st else guess_loop k (guess_step st)
  end.

(** The run up to [return c;]: the final state. *)
Definition guess_run (fuel : nat) (n : Z) : option gstate :=
  guess_loop fuel (guess_init n).

Definition guessNumber (fuel : nat) (n : Z) : option Z :=
  option_map (fun st => to_int (c st)) (guess_run fuel n).

(** The states at the head of the loop, each just after a call of [guess]. *)
Inductive guess_reach (n : Z) : gstate -> Prop :=
| reach_init : guess_reach n (guess_init n)
| reach_step st :
    guess_reach n st -> g st <> 0 -> guess_reach n (guess_step st).

End GuessNumber.

(** Modelled from the spec: the oracle [guess] is supplied by the caller and
    is not part of the sources; for a secret [s] it answers [1] when the
    secret is greater than the candidate, [-1] when it is less, and [0] when
    they are equal. *)
Definition oracle (s num : Z) : Z :=
  if s >? num then 1 else if s <? num then -1 else 0.

(** Iterations that are enough on [n] candidates. *)
Definition guess_fuel (n : Z) : nat := S (Z.to_nat (Z.log2 n)).

(** The invariant of the search for the secret [s]. *)
Definition guess_inv (n s : Z) (st : gstate) : Prop :=
  1 <= left st /\ left st <= s <= right st /\ right st <= n /\
  c st = (left st + right st + 1) / 2 /\
  g st = oracle s (c st) /\
  Forall (fun a => 1 <= a <= n) (calls st).

(** The invariant of the search under an arbitrary oracle. *)
Definition guess_inv_any (n : Z) (st : gstate) : Prop :=
  1 <= left st <= n + 2 /\ 0 <= right st <= n /\
  left st <= right st + 2 /\
  c st = (left st + right st + 1) / 2 /\
  Forall (fun a => 1 <= a <= n + 1) (calls st).

(** ** 441: arrangeCoins *)

(** The argument of [sqrt]: [(long long) 8*n+1]. *)
Definition coins_radicand (n : Z) : Z := to_long (to_long (8 * n) + 1).

(** [long i=(sqrt( (long long) 8*n+1)-1)/2+1;]  (the local [j] of the
    source is never read). *)
Definition coins_init (n : Z) : Z :=
  double_to_long
    (dadd (ddiv (dsub (dsqrt (of_Z (coins_radicand n))) (of_Z 1)) (of_Z 2))
          (of_Z 1)).

(** [i*(i+1)/2>n] *)
Definition coins_cond (n i : Z) : bool :=
  Z.quot (to_long (i * to_long (i + 1))) 2 >? n.

Fixpoint coins_loop (fuel : nat) (n i : Z) : option Z :=
  match fuel with
  | O => None
  | S k => if coins_cond n i then coins_loop k n (to_long (i - 1)) else Some i
  end.

Definition arrangeCoins (fuel : nat) (n : Z) : option Z :=
  option_map to_int (coins_loop fuel n (coins_init n)).

(** The values of [i] on which the loop tests [i*(i+1)/2>n], in the order
    it tests them: the last one is the value the loop leaves with. *)
Fixpoint coins_trace (fuel : nat) (n i : Z) : list Z :=
  match fuel with
  | O => []
  | S k =>
      i :: (if coins_cond n i then coins_trace k n (to_long (i - 1)) else [])
  end.

(** The values of [i] at the head of the loop. *)
Inductive coins_reach (n : Z) : Z -> Prop :=
| coins_reach_init : coins_reach n (coins_init n)
| coins_reach_step i :
    coins_reach n i -> coins_cond n i = true ->
    coins_reach n (to_long (i - 1)).

(** The number of complete rows, in closed form. *)
Definition coins_rows (n : Z) : Z := (Z.sqrt (8 * n + 1) - 1) / 2.

(** ** 69: mySqrt *)

(** [double a=1+x/2;] with the sum and the quotient on [int]. *)
Definition sqrt_init (x : Z) : double :=
  of_Z (to_int (1 + to_int (Z.quot x 2))).

(** [a*a>x+0.1] *)
Definition sqrt_cond (x : Z) (a : double) : bool :=
  dgt (dmul a a) (dadd (of_Z x) d0_1).

(** [a=(a+x/a)/2;] *)
Definition sqrt_step (x : Z) (a : double) : double :=
  ddiv (dadd a (ddiv (of_Z x) a)) (of_Z 2).

Fixpoint sqrt_loop (fuel : nat) (x : Z) (a : double) : option double :=
  match fuel with
  | O => None
  | S k => if sqrt_cond x a then sqrt_loop k x (sqrt_step x a) else Some a
  end.

Definition mySqrt (fuel : nat) (x : Z) : option Z :=
  option_map double_to_int (sqrt_loop fuel x (sqrt_init x)).

(** The divisors of [x/a], in the order the loop evaluates them. *)
Fixpoint sqrt_divisors (fuel : nat) (x : Z) (a : double) : list double :=
  match fuel with
  | O => []
  | S k =>
      if sqrt_cond x a then a :: sqrt_divisors k x (sqrt_step x a) else []
  end.

(** ** The real value of a double, and what rounding guarantees *)

Definition bpow (e : Z) : R := powerRZ 2 e.

Definition SF2R (f : spec_float) : R :=
  match f with
  | S754_finite s m e => (IZR (cond_Zopp s (Zpos m)) * bpow e)%R
  | _ => 0%R
  end.

Definition expo (f : spec_float) : Z :=
  match f with S754_finite _ _ e => e | _ => 0 end.

(** A positive double in the normal range: 53 significant bits. *)
Definition normal_pos (f : spec_float) : Prop :=
  match f with
  | S754_finite false m e => Zpos (digits2_pos m) = 53 /\ -1074 <= e <= 971
  | _ => False
  end.

(** Non-negative reals with a significand of at most 53 bits. *)
Definition F53 (v : R) : Prop :=
  exists mv ev, 0 <= mv <= 2 ^ 53 /\ v = (IZR mv * bpow ev)%R.

(** [f] is a rounding of [v]: no number with a 53-bit significand lies
    strictly between them, and [f] exceeds [v] by at most one part in
    [2^52]. *)
Definition faithful (v f : R) : Prop :=
  (forall t, F53 t ->
     ((t <= v)%R -> (t <= f)%R) /\ ((v <= t)%R -> (f <= t)%R)) /\
  (f <= v * (1 + bpow (-52)))%R.

(** A shift that lost nothing. *)
Definition shr_exact (mrs : shr_record) : bool :=
  negb (shr_r mrs) && negb (shr_s mrs).

(** The invariant of the Newton iteration for [x >= 1]. *)
Definition sqrt_inv (x : Z) (a : double) : Prop :=
  normal_pos a /\ (IZR (Z.sqrt x) <= SF2R a <= bpow 30)%R.

(** * Proofs *)

(** Linear arithmetic with divisions by constants. *)
Ltac lia_div := Z.to_euclidean_division_equations; lia.

(** ** Machine integers *)

Lemma wrap_id w z : 0 < w -> - 2 ^ (w - 1) <= z < 2 ^ (w - 1) -> wrap w z = z.
Proof.
  intros Hw Hz. unfold wrap.
  replace (2 ^ w) with (2 * 2 ^ (w - 1)).
  - rewrite Z.mod_small; lia.
  - rewrite <- Z.pow_succ_r by lia. f_equal. lia.
Qed.

Lemma to_int_id z : INT_MIN <= z <= INT_MAX -> to_int z = z.
Proof.
  unfold INT_MIN, INT_MAX, to_int, int_bits. intros H.
  apply wrap_id; [lia|]. change (2 ^ (32 - 1)) with (2 ^ 31). lia.
Qed.

Lemma to_long_id z : - 2 ^ 63 <= z < 2 ^ 63 -> to_long z = z.
Proof.
  unfold to_long, long_bits. intros H.
  apply wrap_id; [lia|]. change (2 ^ (64 - 1)) with (2 ^ 63). lia.
Qed.

Lemma midpoint_exact l r :
  0 <= l -> 0 <= r -> l + r + 1 < 2 ^ 63 ->
  mid_sum l r = l + r + 1 /\ midpoint l r = (l + r + 1) / 2.
Proof.
  intros Hl Hr Hlr. unfold midpoint, mid_sum.
  rewrite (to_long_id (l + r)) by lia.
  rewrite to_long_id by lia.
  split; [reflexivity|]. apply Z.quot_div_nonneg; lia.
Qed.

(** ** guessNumber: the search invariant *)

Lemma oracle_cases s num :
  (s > num /\ oracle s num = 1) \/ (s < num /\ oracle s num = -1) \/
  (s = num /\ oracle s num = 0).
Proof.
  unfold oracle.
  destruct (Z.gtb_spec s num); [left; lia|].
  destruct (Z.ltb_spec s num); [right; left; lia|right; right; lia].
Qed.

Lemma guess_init_inv n s :
  1 <= n <= INT_MAX -> 1 <= s <= n -> guess_inv n s (guess_init (oracle s) n).
Proof.
  unfold INT_MAX. intros Hn Hs.
  assert (Hr : to_long n = n) by (apply to_long_id; lia).
  destruct (midpoint_exact 1 n) as [_ Hm]; try lia.
  assert (Hc : 1 <= (1 + n + 1) / 2 <= n) by lia_div.
  unfold guess_inv, guess_init; cbn. rewrite Hr, Hm.
  rewrite to_int_id by (unfold INT_MIN, INT_MAX; lia).
  repeat split; try lia. constructor; [lia|constructor].
Qed.

Lemma guess_step_inv n s st :
  n <= INT_MAX -> guess_inv n s st -> g st <> 0 ->
  guess_inv n s (guess_step (oracle s) st) /\
  right (guess_step (oracle s) st) - left (guess_step (oracle s) st) + 1
    <= (right st - left st + 1) / 2 /\
  length (calls (guess_step (oracle s) st)) = S (length (calls st)).
Proof.
  unfold INT_MAX. intros Hn (Hl & Hs & Hr & Hc & Hg & Hcalls) Hg0.
  assert (Hc2 : left st <= c st <= right st) by lia_div.
  assert (Hsz : 2 * c st <= left st + right st + 1 < 2 * c st + 2) by lia_div.
  unfold guess_step.
  destruct (oracle_cases s (c st)) as [[Hlt Ho]|[[Hlt Ho]|[Hlt Ho]]];
    rewrite Hg, Ho in *; cbn [Z.eqb Pos.eqb]; [| |congruence].
  - (* the secret is above the candidate *)
    rewrite (to_long_id (c st + 1)) by lia.
    destruct (midpoint_exact (c st + 1) (right st)) as [_ Hm]; try lia.
    assert (Hc' : c st + 1 <= (c st + 1 + right st + 1) / 2 <= right st)
      by lia_div.
    rewrite Hm, to_int_id by (unfold INT_MIN, INT_MAX; lia).
    unfold guess_inv; cbn. repeat split; try lia.
    + apply Forall_app; split; [assumption|]. constructor; [lia|constructor].
    + lia_div.
    + rewrite length_app; cbn; lia.
  - (* the secret is below the candidate *)
    rewrite (to_long_id (c st - 1)) by lia.
    destruct (midpoint_exact (left st) (c st - 1)) as [_ Hm]; try lia.
    assert (Hc' : left st <= (left st + (c st - 1) + 1) / 2 <= c st - 1)
      by lia_div.
    rewrite Hm, to_int_id by (unfold INT_MIN, INT_MAX; lia).
    unfold guess_inv; cbn. repeat split; try lia.
    + apply Forall_app; split; [assumption|]. constructor; [lia|constructor].
    + lia_div.
    + rewrite length_app; cbn; lia.
Qed.

Lemma guess_inv_exit n s st : guess_inv n s st -> g st = 0 -> c st = s.
Proof.
  intros (_ & _ & _ & _ & Hg & _) Hg0. rewrite Hg0 in Hg.
  destruct (oracle_cases s (c st)) as [[? Ho]|[[? Ho]|[? Ho]]]; lia.
Qed.

(** From a state of the invariant the loop ends, on the secret, within
    [log2] of the width of its interval further calls. *)
Lemma guess_loop_spec n s fuel : forall st,
  n <= INT_MAX -> guess_inv n s st ->
  Z.log2 (right st - left st + 1) < Z.of_nat fuel ->
  exists st', guess_loop (oracle s) fuel st = Some st' /\
    guess_inv n s st' /\ c st' = s /\
    Z.of_nat (length (calls st'))
      <= Z.of_nat (length (calls st)) + Z.log2 (right st - left st + 1).
Proof.
  induction fuel as [|k IH]; intros st Hn Hinv Hfuel.
  - pose proof (Z.log2_nonneg (right st - left st + 1)). lia.
  - cbn [guess_loop]. destruct (Z.eqb_spec (g st) 0) as [Hg|Hg].
    + exists st. pose proof (Z.log2_nonneg (right st - left st + 1)).
      split; [reflexivity|]. split; [assumption|].
      split; [eapply guess_inv_exit; eassumption|lia].
    + destruct (guess_step_inv n s st Hn Hinv Hg) as (Hinv' & Hsz & Hlen).
      set (st1 := guess_step (oracle s) st) in *.
      assert (Hpos : 1 <= right st1 - left st1 + 1).
      { destruct Hinv' as (_ & ? & _). lia. }
      assert (Hlog : Z.log2 (right st1 - left st1 + 1)
                     <= Z.log2 (right st - left st + 1) - 1).
      { assert (2 <= right st - left st + 1) by lia_div.
        transitivity (Z.log2 ((right st - left st + 1) / 2)).
        - apply Z.log2_le_mono; lia.
        - rewrite <- Z.div2_div, Z.div2_spec, Z.log2_shiftr by lia.
          apply Z.max_lub; [|lia].
          pose proof (Z.log2_le_mono 2 (right st - left st + 1)).
          change (Z.log2 2) with 1 in *. lia. }
      destruct (IH st1 Hn Hinv') as (st' & Hrun & Hinv'' & Hc & Hcalls); [lia|].
      exists st'. split; [assumption|]. split; [assumption|].
      split; [assumption|]. fold st1 in Hlen. lia.
Qed.

(** ** Binary64: digits, shifts and rounding *)

(** The number of binary digits of a mantissa. *)
Lemma digits2_pos_log2 m : Zpos (digits2_pos m) = Z.log2 (Zpos m) + 1.
Proof.
  induction m as [m IH|m IH|]; cbn [digits2_pos]; try reflexivity;
    rewrite Pos2Z.inj_succ, IH.
  - change (Zpos m~1) with (2 * Zpos m + 1).
    rewrite Z.log2_succ_double by lia. lia.
  - change (Zpos m~0) with (2 * Zpos m).
    rewrite Z.log2_double by lia. lia.
Qed.

Lemma digits2_pos_bounds m :
  2 ^ (Zpos (digits2_pos m) - 1) <= Zpos m < 2 ^ Zpos (digits2_pos m).
Proof.
  rewrite digits2_pos_log2.
  replace (Z.log2 (Z.pos m) + 1 - 1) with (Z.log2 (Z.pos m)) by lia.
  pose proof (Z.log2_spec (Zpos m)). rewrite <- Z.add_1_r in H. lia.
Qed.

Lemma digits2_pos_unique m d :
  2 ^ (d - 1) <= Zpos m < 2 ^ d -> Zpos (digits2_pos m) = d.
Proof.
  intros H. rewrite digits2_pos_log2.
  assert (0 < d).
  { destruct (Z.ltb_spec 0 d); [assumption|].
    destruct (Z.eq_dec d 0) as [->|]; [cbn in H; lia|].
    rewrite (Z.pow_neg_r 2 d) in H by lia. lia. }
  rewrite (Z.log2_unique (Zpos m) (d - 1)); [lia|lia|].
  replace (Z.succ (d - 1)) with d by lia. assumption.
Qed.

(** One right shift halves the mantissa, and stays exact on an even one. *)
Lemma shr_1_spec mrs :
  0 <= shr_m mrs ->
  shr_m (shr_1 mrs) = shr_m mrs / 2 /\
  (shr_exact mrs = true -> shr_m mrs mod 2 = 0 -> shr_exact (shr_1 mrs) = true).
Proof.
  destruct mrs as [m r s]. unfold shr_exact. cbn [shr_m shr_r shr_s]. intros Hm.
  destruct m as [|[p|p|]|p]; cbn [shr_1 shr_m shr_r shr_s]; try lia.
  - split; [reflexivity|]. destruct r, s; cbn; intros; congruence.
  - split; [lia_div|]. intros _ H. exfalso. revert H. lia_div.
  - split; [lia_div|]. destruct r, s; cbn; intros; congruence.
  - split; [reflexivity|]. intros _ H. cbn in H. lia.
Qed.

Lemma iter_pos_nat {A} (f : A -> A) p x :
  iter_pos f p x = Nat.iter (Pos.to_nat p) f x.
Proof.
  revert x. induction p as [p IH|p IH|]; intros x; cbn [iter_pos].
  - rewrite !IH, Pos2Nat.inj_xI. cbn [Nat.iter Nat.mul].
    rewrite Nat.add_0_r, <- Nat.iter_add, <- Nat.iter_succ_r. reflexivity.
  - rewrite !IH, Pos2Nat.inj_xO. cbn [Nat.mul].
    rewrite Nat.add_0_r, <- Nat.iter_add. reflexivity.
  - reflexivity.
Qed.

Lemma shr_iter_spec k : forall mrs,
  0 <= shr_m mrs ->
  shr_m (Nat.iter k shr_1 mrs) = shr_m mrs / 2 ^ Z.of_nat k /\
  (shr_exact mrs = true -> shr_m mrs mod 2 ^ Z.of_nat k = 0 ->
   shr_exact (Nat.iter k shr_1 mrs) = true).
Proof.
  induction k as [|k IH]; intros mrs Hm.
  - cbn [Nat.iter]. change (2 ^ Z.of_nat 0) with 1. rewrite Z.div_1_r.
    split; [reflexivity|]. intros; assumption.
  - rewrite Nat.iter_succ_r.
    destruct (shr_1_spec mrs Hm) as [H1 H1e].
    assert (Hm1 : 0 <= shr_m (shr_1 mrs)) by (rewrite H1; lia_div).
    destruct (IH _ Hm1) as [H2 H2e].
    rewrite Nat2Z.inj_succ, Z.pow_succ_r by lia.
    split.
    + rewrite H2, H1, Z.div_div by lia. reflexivity.
    + intros He Hmod.
      assert (Hdiv : (2 * 2 ^ Z.of_nat k | shr_m mrs)).
      { apply Z.mod_divide; [lia|assumption]. }
      destruct Hdiv as [q Hq].
      apply H2e.
      * apply H1e; [assumption|]. rewrite Hq.
        replace (q * (2 * 2 ^ Z.of_nat k)) with (q * 2 ^ Z.of_nat k * 2) by ring.
        apply Z.mod_mul. lia.
      * rewrite H1, Hq.
        replace (q * (2 * 2 ^ Z.of_nat k)) with (q * 2 ^ Z.of_nat k * 2) by ring.
        rewrite Z.div_mul by lia. apply Z.mod_mul. lia.
Qed.

Lemma loc_of_shr_record_of_loc m l :
  loc_of_shr_record (shr_record_of_loc m l) = l /\
  shr_m (shr_record_of_loc m l) = m.
Proof. destruct l as [|[| |]]; split; reflexivity. Qed.

Lemma loc_exact_iff mrs :
  loc_of_shr_record mrs = loc_Exact <-> shr_exact mrs = true.
Proof.
  destruct mrs as [m [|] [|]]; unfold shr_exact; cbn; split; congruence.
Qed.

(** [shr] by [n] divides by [2 ^ n]. *)
Lemma shr_spec m l e n :
  0 <= m -> 0 <= n ->
  shr_m (fst (shr (shr_record_of_loc m l) e n)) = m / 2 ^ n /\
  snd (shr (shr_record_of_loc m l) e n) = e + n /\
  (l = loc_Exact -> m mod 2 ^ n = 0 ->
   loc_of_shr_record (fst (shr (shr_record_of_loc m l) e n)) = loc_Exact).
Proof.
  intros Hm Hn. destruct (loc_of_shr_record_of_loc m l) as [Hl Hrm].
  destruct n as [|p|p]; [| |lia]; cbn [shr fst snd].
  - rewrite Hrm, Hl, Z.div_1_r. repeat split; [lia|]. intros; assumption.
  - rewrite iter_pos_nat.
    destruct (shr_iter_spec (Pos.to_nat p) (shr_record_of_loc m l)) as [H1 H2];
      [rewrite Hrm; assumption|].
    rewrite positive_nat_Z, Hrm in *. repeat split; [assumption|].
    intros Hex Hmod. apply loc_exact_iff, H2; [|assumption].
    apply loc_exact_iff. rewrite Hl. assumption.
Qed.

Lemma round_nearest_even_cases m l :
  round_nearest_even m l = m \/
  (round_nearest_even m l = m + 1 /\ l <> loc_Exact).
Proof.
  destruct l as [|[| |]]; cbn [round_nearest_even]; auto.
  - destruct (Z.even m); [left|right; split]; congruence.
  - right; split; congruence.
Qed.

Lemma fexp_normal e : -1074 <= e - 53 -> fexp prec emax e = e - 53.
Proof. unfold fexp, emin, prec, emax. lia. Qed.

(** Rounding a mantissa of at least 53 digits whose result stays in the
    normal range: the mantissa is cut to its 53 leading digits [M0], the
    result is [M0] or [M0 + 1] on that grid, and [M0 + 1] only if something
    was cut or the location was inexact. *)
Lemma binary_round_aux_normal s m e l :
  53 <= Zpos (digits2_pos m) ->
  -1074 <= Zpos (digits2_pos m) + e - 53 ->
  Zpos (digits2_pos m) + e <= 1023 ->
  exists M m' e',
    binary_round_aux prec emax s (Zpos m) e l = S754_finite s m' e' /\
    Zpos (digits2_pos m') = 53 /\ -1074 <= e' <= 971 /\
    (M = Zpos m / 2 ^ (Zpos (digits2_pos m) - 53) \/
     (M = Zpos m / 2 ^ (Zpos (digits2_pos m) - 53) + 1 /\
      ~ (l = loc_Exact /\ Zpos m mod 2 ^ (Zpos (digits2_pos m) - 53) = 0))) /\
    e + (Zpos (digits2_pos m) - 53) <= e' /\
    Zpos m' * 2 ^ (e' - (e + (Zpos (digits2_pos m) - 53))) = M.
Proof.
  set (d := Zpos (digits2_pos m)). intros Hd Hlo Hhi.
  set (n := d - 53).
  pose proof (digits2_pos_bounds m) as Hm. fold d in Hm.
  assert (Hpow : 2 ^ (d - 1) = 2 ^ 52 * 2 ^ n /\ 2 ^ d = 2 ^ 53 * 2 ^ n).
  { unfold n. rewrite <- !Z.pow_add_r by lia. split; f_equal; lia. }
  destruct Hpow as [Hp1 Hp2].
  assert (Hn2 : 0 < 2 ^ n) by (apply Z.pow_pos_nonneg; lia).
  set (m1 := Zpos m / 2 ^ n).
  assert (Hm1 : 2 ^ 52 <= m1 < 2 ^ 53).
  { unfold m1. split.
    - apply Z.div_le_lower_bound; lia.
    - apply Z.div_lt_upper_bound; lia. }
  unfold binary_round_aux, shr_fexp. cbn [Zdigits2]. fold d.
  rewrite fexp_normal by lia.
  replace (d + e - 53 - e) with n by (unfold n; lia).
  destruct (shr_spec (Zpos m) l e n) as (Hs1 & Hs2 & Hs3); [lia|unfold n; lia|].
  destruct (shr (shr_record_of_loc (Zpos m) l) e n) as [mrs1 e1].
  cbn [fst snd] in Hs1, Hs2, Hs3. fold m1 in Hs1. subst e1. rewrite Hs1.
  set (M := round_nearest_even m1 (loc_of_shr_record mrs1)).
  assert (HM : M = m1 \/ (M = m1 + 1 /\ ~ (l = loc_Exact /\ Zpos m mod 2 ^ n = 0))).
  { destruct (round_nearest_even_cases m1 (loc_of_shr_record mrs1)) as [H|[H H']].
    - left; exact H.
    - right; split; [exact H|]. intros [Hl Hmod]. apply H'. apply Hs3; assumption. }
  assert (HMr : 2 ^ 52 <= M <= 2 ^ 53) by lia.
  clearbody M. clear Hs1 Hs3 mrs1.
  destruct (Z.eq_dec M (2 ^ 53)) as [Htop|Htop].
  - (* the rounding carried into the next binade *)
    rewrite Htop.
    change (Zdigits2 (2 ^ 53)) with 54.
    rewrite fexp_normal by (unfold n; lia).
    replace (54 + (e + n) - 53 - (e + n)) with 1 by lia.
    cbn [shr_record_of_loc shr iter_pos].
    change (shr_m (shr_1 {| shr_m := 2 ^ 53; shr_r := false; shr_s := false |}))
      with (Zpos (2 ^ 52)).
    cbv beta iota.
    replace (e + n + 1 <=? emax - prec) with true
      by (symmetry; apply Z.leb_le; unfold emax, prec, n; lia).
    exists M, (2 ^ 52)%positive, (e + n + 1).
    split; [reflexivity|]. split; [reflexivity|].
    split; [unfold n; lia|]. split; [assumption|]. split; [lia|].
    replace (e + n + 1 - (e + n)) with 1 by lia. rewrite Htop. reflexivity.
  - destruct M as [|pM|pM]; try lia.
    assert (HdM : Zpos (digits2_pos pM) = 53) by (apply digits2_pos_unique; lia).
    cbn [Zdigits2]. rewrite HdM, fexp_normal by (unfold n; lia).
    replace (53 + (e + n) - 53 - (e + n)) with 0 by lia.
    cbn [shr_record_of_loc shr shr_m].
    replace (e + n <=? emax - prec) with true
      by (symmetry; apply Z.leb_le; unfold emax, prec, n; lia).
    exists (Zpos pM), pM, (e + n).
    split; [reflexivity|]. split; [assumption|].
    split; [unfold n; lia|]. split; [assumption|]. split; [lia|].
    rewrite Z.sub_diag. lia.
Qed.

(** ** Binary64: real values *)

Lemma bpow_pos e : (0 < bpow e)%R.
Proof. apply powerRZ_lt. lra. Qed.

Lemma bpow_add a b : bpow (a + b) = (bpow a * bpow b)%R.
Proof. apply powerRZ_add. lra. Qed.

Lemma bpow_IZR n : 0 <= n -> bpow n = IZR (2 ^ n).
Proof.
  intros Hn. unfold bpow. destruct n as [|p|p]; [reflexivity| |lia].
  cbn [powerRZ]. rewrite pow_IZR, positive_nat_Z. reflexivity.
Qed.

Lemma bpow_le a b : a <= b -> (bpow a <= bpow b)%R.
Proof.
  intros H. replace b with (a + (b - a)) by lia. rewrite bpow_add.
  rewrite (bpow_IZR (b - a)) by lia.
  assert (H1 : 1 <= 2 ^ (b - a)) by (pose proof (Z.pow_pos_nonneg 2 (b - a)); lia).
  apply IZR_le in H1. pose proof (bpow_pos a). nra.
Qed.

Lemma bpow_lt a b : a < b -> (bpow a < bpow b)%R.
Proof.
  intros H. replace b with (a + (b - a)) by lia. rewrite bpow_add.
  rewrite (bpow_IZR (b - a)) by lia.
  assert (2 <= 2 ^ (b - a)).
  { change 2 with (2 ^ 1) at 1. apply Z.pow_le_mono_r; lia. }
  apply IZR_le in H0. pose proof (bpow_pos a). nra.
Qed.

Lemma bpow_lt_inv a b : (bpow a < bpow b)%R -> a < b.
Proof.
  intros H. destruct (Z.lt_ge_cases a b) as [|Hge]; [assumption|].
  apply bpow_le in Hge. lra.
Qed.

(** [IZR m * bpow e] rescaled to a smaller exponent. *)
Lemma scale_down m e e' :
  e' <= e -> (IZR m * bpow e)%R = (IZR (m * 2 ^ (e - e')) * bpow e')%R.
Proof.
  intros H. rewrite mult_IZR, <- bpow_IZR by lia.
  rewrite Rmult_assoc, <- bpow_add. do 2 f_equal. lia.
Qed.

Lemma bpow_inv_IZR e : e <= 0 -> (bpow e * IZR (2 ^ (- e)) = 1)%R.
Proof.
  intros He. rewrite <- bpow_IZR, <- bpow_add by lia.
  replace (e + - e) with 0 by lia. reflexivity.
Qed.

(** On the grid of a 53-digit mantissa [M] no number of [F53] lies strictly
    between two neighbours. *)
Lemma F53_grid g M E :
  F53 g -> 2 ^ 52 <= M ->
  ((g < IZR (M + 1) * bpow E)%R -> (g <= IZR M * bpow E)%R) /\
  ((IZR M * bpow E < g)%R -> (IZR (M + 1) * bpow E <= g)%R).
Proof.
  intros (mg & eg & Hmg & ->) HM. pose proof (bpow_pos E) as HE.
  destruct (Z.le_gt_cases E eg) as [Hle|Hgt].
  - rewrite (scale_down mg eg E Hle). set (k := mg * 2 ^ (eg - E)).
    split; intros H.
    + apply Rmult_lt_reg_r in H; [|assumption]. apply lt_IZR in H.
      apply Rmult_le_compat_r; [lra|]. apply IZR_le. lia.
    + apply Rmult_lt_reg_r in H; [|assumption]. apply lt_IZR in H.
      apply Rmult_le_compat_r; [lra|]. apply IZR_le. lia.
  - assert (Hg : (IZR mg * bpow eg <= IZR M * bpow E)%R).
    { assert (H1 : (bpow (eg + 1) <= bpow E)%R) by (apply bpow_le; lia).
      rewrite bpow_add, (bpow_IZR 1) in H1 by lia. change (2 ^ 1) with 2 in H1.
      pose proof (bpow_pos eg).
      assert (H2 : (IZR mg <= IZR (2 ^ 53))%R) by (apply IZR_le; lia).
      assert (H3 : (IZR (2 ^ 52) <= IZR M)%R) by (apply IZR_le; lia).
      change (2 ^ 53) with (2 * 2 ^ 52) in H2. rewrite mult_IZR in H2.
      assert (0 < IZR (2 ^ 52))%R by (apply IZR_lt; lia).
      nra. }
    split; intros H; lra.
Qed.

(** A value [v] located by [m], [e] and [l] is rounded faithfully. *)
Lemma binary_round_aux_faithful m e l v :
  53 <= Zpos (digits2_pos m) ->
  -1074 <= Zpos (digits2_pos m) + e - 53 ->
  Zpos (digits2_pos m) + e <= 1023 ->
  (IZR (Zpos m) * bpow e <= v < IZR (Zpos m + 1) * bpow e)%R ->
  (v = (IZR (Zpos m) * bpow e)%R -> l = loc_Exact) ->
  normal_pos (binary_round_aux prec emax false (Zpos m) e l) /\
  faithful v (SF2R (binary_round_aux prec emax false (Zpos m) e l)).
Proof.
  intros Hd Hlo Hhi Hv Hex.
  destruct (binary_round_aux_normal false m e l Hd Hlo Hhi)
    as (M & m' & e' & -> & Hd' & He' & HM & Hee & HMm).
  set (n := Zpos (digits2_pos m) - 53) in *.
  set (m1 := Zpos m / 2 ^ n) in *.
  split; [cbn; split; assumption|].
  assert (Hn2 : 0 < 2 ^ n) by (apply Z.pow_pos_nonneg; unfold n; lia).
  assert (Hm1 : m1 * 2 ^ n <= Zpos m < (m1 + 1) * 2 ^ n).
  { unfold m1. pose proof (Z.mul_div_le (Zpos m) (2 ^ n) Hn2).
    pose proof (Z.mul_succ_div_gt (Zpos m) (2 ^ n) Hn2). lia. }
  assert (H52 : 2 ^ 52 <= m1).
  { pose proof (digits2_pos_bounds m') as Hb. rewrite Hd' in Hb.
    change (2 ^ (53 - 1)) with (2 ^ 52) in Hb.
    assert (2 ^ 52 <= M).
    { rewrite <- HMm. pose proof (Z.pow_pos_nonneg 2 (e' - (e + n))). nia. }
    pose proof (digits2_pos_bounds m) as Hbm.
    unfold m1. apply Z.div_le_lower_bound; [lia|].
    replace (2 ^ n * 2 ^ 52) with (2 ^ (Zpos (digits2_pos m) - 1)); [lia|].
    rewrite <- Z.pow_add_r by (unfold n; lia). f_equal. unfold n. lia. }
  (* everything on the grid of exponent [e], where [bpow (e + n)] is
     [2 ^ n] steps *)
  assert (Hf : SF2R (S754_finite false m' e') = (IZR M * bpow (e + n))%R).
  { cbn [SF2R cond_Zopp]. rewrite (scale_down _ e' (e + n)) by lia.
    rewrite HMm. reflexivity. }
  rewrite Hf. clear Hf.
  pose proof (bpow_pos e) as HB. pose proof (bpow_pos (e + n)) as HBn.
  assert (HBe : bpow (e + n) = (IZR (2 ^ n) * bpow e)%R).
  { rewrite bpow_add, (bpow_IZR n) by (unfold n; lia). ring. }
  assert (Hlo1 : (IZR m1 * bpow (e + n) <= IZR (Zpos m) * bpow e)%R).
  { rewrite HBe, <- Rmult_assoc, <- mult_IZR.
    apply Rmult_le_compat_r; [lra|]. apply IZR_le. lia. }
  assert (Hhi1 : (IZR (Zpos m + 1) * bpow e <= IZR (m1 + 1) * bpow (e + n))%R).
  { rewrite HBe, <- Rmult_assoc, <- mult_IZR.
    apply Rmult_le_compat_r; [lra|]. apply IZR_le. lia. }
  assert (HMm1 : (IZR m1 * bpow (e + n) <= IZR M * bpow (e + n))%R).
  { apply Rmult_le_compat_r; [lra|]. apply IZR_le. lia. }
  split.
  2:{ (* at most one step of the grid above [v], and a step is at most
         [v / 2^52] *)
    assert (HM1 : (IZR M <= IZR m1 + 1)%R).
    { rewrite <- (plus_IZR m1 1). apply IZR_le. lia. }
    pose proof (bpow_inv_IZR (-52) ltac:(lia)) as H52'.
    change (2 ^ (- -52)) with (2 ^ 52) in H52'.
    pose proof (bpow_pos (-52)) as Hrho.
    assert (H52R : (IZR (2 ^ 52) <= IZR m1)%R) by (apply IZR_le; assumption).
    assert (Hstep : (bpow (e + n) <= IZR m1 * bpow (e + n) * bpow (-52))%R).
    { assert (1 <= IZR m1 * bpow (-52))%R by nra. nra. }
    nra. }
  intros g Hg. destruct (F53_grid g m1 (e + n) Hg H52) as [Hg1 Hg2].
  split; intros Hgv.
  - assert (g <= IZR m1 * bpow (e + n))%R by (apply Hg1; lra). lra.
  - destruct HM as [->|[-> Hinex]]; [lra|].
    apply Hg2. destruct (Rle_lt_dec g (IZR m1 * bpow (e + n))) as [Hle|]; [|assumption].
    exfalso. apply Hinex.
    assert (Hveq : v = (IZR (Zpos m) * bpow e)%R) by lra.
    split; [apply Hex; assumption|].
    assert (Heq : (IZR (m1 * 2 ^ n) * bpow e = IZR (Zpos m) * bpow e)%R).
    { rewrite mult_IZR, Rmult_assoc, <- HBe. lra. }
    apply Rmult_eq_reg_r in Heq; [|lra]. apply eq_IZR in Heq.
    rewrite <- Heq. apply Z.mod_mul. lia.
Qed.

Lemma normal_pos_inv f :
  normal_pos f ->
  exists m e, f = S754_finite false m e /\
    2 ^ 52 <= Zpos m < 2 ^ 53 /\ -1074 <= e <= 971.
Proof.
  destruct f as [| | |[|] m e]; cbn; try contradiction.
  intros [Hd He]. exists m, e. split; [reflexivity|]. split; [|assumption].
  pose proof (digits2_pos_bounds m) as H. rewrite Hd in H. exact H.
Qed.

(** A representable value is rounded to itself. *)
Lemma faithful_exact v f : F53 v -> faithful v f -> f = v.
Proof.
  intros Hv [H _]. destruct (H v Hv) as [H1 H2].
  apply Rle_antisym; [apply H2|apply H1]; lra.
Qed.

Lemma faithful_ge v f t : faithful v f -> F53 t -> (t <= v)%R -> (t <= f)%R.
Proof. intros [H _] Ht. apply (H t Ht). Qed.

Lemma faithful_le v f t : faithful v f -> F53 t -> (v <= t)%R -> (f <= t)%R.
Proof. intros [H _] Ht. apply (H t Ht). Qed.

Lemma faithful_rel v f : faithful v f -> (f <= v * (1 + bpow (-52)))%R.
Proof. intros [_ H]. exact H. Qed.

(** A normal double lies in the binade of its exponent. *)
Lemma normal_pos_bounds f :
  normal_pos f -> (bpow (expo f + 52) <= SF2R f < bpow (expo f + 53))%R.
Proof.
  intros H. destruct (normal_pos_inv f H) as (m & e & -> & Hm & He).
  cbn [SF2R expo cond_Zopp]. rewrite !(Z.add_comm e), !bpow_add.
  rewrite (bpow_IZR 52), (bpow_IZR 53) by lia. pose proof (bpow_pos e).
  destruct Hm as [Hm1 Hm2]. apply IZR_le in Hm1. apply IZR_lt in Hm2.
  split; nra.
Qed.

Lemma normal_pos_expo_ge f lo :
  normal_pos f -> (bpow lo <= SF2R f)%R -> lo - 52 <= expo f.
Proof.
  intros H Hlo. pose proof (normal_pos_bounds f H) as [_ Hb].
  assert (Hlt : (bpow lo < bpow (expo f + 53))%R) by lra.
  apply bpow_lt_inv in Hlt. lia.
Qed.

Lemma normal_pos_expo_le f hi :
  normal_pos f -> (SF2R f <= bpow hi)%R -> expo f <= hi - 52.
Proof.
  intros H Hhi. pose proof (normal_pos_bounds f H) as [Hb _].
  destruct (Z.le_gt_cases (expo f + 52) hi) as [|Hgt]; [lia|].
  apply bpow_lt in Hgt. lra.
Qed.

(** *** Multiplication *)

Lemma dmul_spec a b :
  normal_pos a -> normal_pos b -> -1126 <= expo a + expo b <= 917 ->
  normal_pos (SFmul prec emax a b) /\
  faithful (SF2R a * SF2R b) (SF2R (SFmul prec emax a b)).
Proof.
  intros Ha Hb.
  destruct (normal_pos_inv a Ha) as (ma & ea & -> & Hma & Hea).
  destruct (normal_pos_inv b Hb) as (mb & eb & -> & Hmb & Heb).
  cbn [expo SFmul xorb SF2R cond_Zopp]. intros He.
  assert (Hprod : 2 ^ 104 <= Zpos (ma * mb) < 2 ^ 106).
  { rewrite Pos2Z.inj_mul. change (2 ^ 104) with (2 ^ 52 * 2 ^ 52).
    change (2 ^ 106) with (2 ^ 53 * 2 ^ 53). nia. }
  assert (Hd : 105 <= Zpos (digits2_pos (ma * mb)) <= 106).
  { rewrite digits2_pos_log2.
    assert (104 <= Z.log2 (Zpos (ma * mb))) by (apply Z.log2_le_pow2; lia).
    assert (Z.log2 (Zpos (ma * mb)) < 106) by (apply Z.log2_lt_pow2; lia).
    lia. }
  apply binary_round_aux_faithful; try lia.
  - rewrite plus_IZR, Pos2Z.inj_mul, mult_IZR, bpow_add.
    pose proof (bpow_pos ea). pose proof (bpow_pos eb).
    assert (0 < bpow ea * bpow eb)%R by nra.
    split; [right; ring|]. nra.
  - reflexivity.
Qed.

(** *** Division *)

Lemma new_location_exact n : new_location n 0 = loc_Exact.
Proof.
  unfold new_location, new_location_even, new_location_odd.
  destruct (Z.even n); reflexivity.
Qed.

Lemma ddiv_spec a b :
  normal_pos a -> normal_pos b -> -1021 <= expo a - expo b <= 1022 ->
  normal_pos (SFdiv prec emax a b) /\
  faithful (SF2R a / SF2R b) (SF2R (SFdiv prec emax a b)).
Proof.
  intros Ha Hb.
  destruct (normal_pos_inv a Ha) as (ma & ea & -> & Hma & Hea).
  destruct (normal_pos_inv b Hb) as (mb & eb & -> & Hmb & Heb).
  destruct Ha as [Hda _], Hb as [Hdb _].
  cbn [expo SFdiv xorb SF2R cond_Zopp]. intros He.
  unfold SFdiv_core_binary. cbn [Zdigits2]. rewrite Hda, Hdb.
  replace (53 + ea - (53 + eb)) with (ea - eb) by lia.
  rewrite fexp_normal by lia.
  rewrite Z.min_l by lia.
  replace (ea - eb - (ea - eb - 53)) with 53 by lia.
  rewrite Z.shiftl_mul_pow2 by lia.
  pose proof (Z_div_mod (Zpos ma * 2 ^ 53) (Zpos mb) eq_refl) as Hdm.
  destruct (Z.div_eucl (Zpos ma * 2 ^ 53) (Zpos mb)) as [q r].
  destruct Hdm as [Hq Hr].
  assert (Hqr : 2 ^ 52 <= q < 2 ^ 54).
  { change (2 ^ 54) with (2 * 2 ^ 53). change (2 ^ 53) with (2 * 2 ^ 52) in *. nia. }
  destruct q as [|q|q]; try lia.
  assert (Hd : 53 <= Zpos (digits2_pos q) <= 54).
  { rewrite digits2_pos_log2.
    assert (52 <= Z.log2 (Zpos q)) by (apply Z.log2_le_pow2; lia).
    assert (Z.log2 (Zpos q) < 54) by (apply Z.log2_lt_pow2; lia).
    lia. }
  pose proof (bpow_pos ea) as HBa. pose proof (bpow_pos eb) as HBb.
  assert (Hmb0 : (0 < IZR (Zpos mb))%R) by (apply IZR_lt; lia).
  assert (Hv : (IZR (Zpos ma) * bpow ea / (IZR (Zpos mb) * bpow eb) =
                (IZR (Zpos mb * Zpos q + r) / IZR (Zpos mb)) * bpow (ea - eb - 53))%R).
  { rewrite <- Hq, mult_IZR, <- (bpow_IZR 53) by lia.
    replace (bpow ea) with (bpow (ea - eb - 53) * bpow 53 * bpow eb)%R.
    - field. split; lra.
    - rewrite <- !bpow_add. f_equal. lia. }
  rewrite Hv. clear Hv. rewrite plus_IZR, mult_IZR.
  pose proof (bpow_pos (ea - eb - 53)) as HB.
  assert (Hr1 : (0 <= IZR r / IZR (Zpos mb) < 1)%R).
  { destruct Hr as [Hr0 Hr1]. apply IZR_le in Hr0. apply IZR_lt in Hr1.
    split.
    - apply Rmult_le_pos; [assumption|]. left. apply Rinv_0_lt_compat. assumption.
    - apply Rmult_lt_reg_r with (IZR (Zpos mb)); [assumption|]. field_simplify; lra. }
  replace ((IZR (Zpos mb) * IZR (Zpos q) + IZR r) / IZR (Zpos mb))%R
    with (IZR (Zpos q) + IZR r / IZR (Zpos mb))%R by (field; lra).
  apply binary_round_aux_faithful; try lia.
  - rewrite plus_IZR. split; nra.
  - intros Heq.
    assert (Hr0 : (IZR r / IZR (Zpos mb) = 0)%R) by nra.
    assert (Hr00 : IZR r = 0%R).
    { apply Rmult_eq_compat_r with (r := IZR (Zpos mb)) in Hr0.
      field_simplify in Hr0; lra. }
    apply eq_IZR in Hr00. subst r. apply new_location_exact.
Qed.

(** *** Normalisation of an integer mantissa: [binary_round] *)

Lemma iter_xO m d : Zpos (Pos.iter xO m d) = Zpos m * 2 ^ Zpos d.
Proof.
  induction d as [|d IH] using Pos.peano_ind.
  - cbn [Pos.iter]. lia.
  - rewrite Pos.iter_succ, Pos2Z.inj_succ, Z.pow_succ_r by lia.
    rewrite Pos2Z.inj_xO, IH. ring.
Qed.

Lemma shl_align_spec m e e' :
  Zpos (fst (shl_align m e e')) * 2 ^ (snd (shl_align m e e') - Z.min e e')
    = Zpos m * 2 ^ (e - Z.min e e') /\
  snd (shl_align m e e') = Z.min e e'.
Proof.
  unfold shl_align. destruct (e' - e) as [|d|d] eqn:Hd; cbn [fst snd].
  - rewrite Z.min_l by lia. split; reflexivity.
  - rewrite Z.min_l by lia. split; reflexivity.
  - rewrite Z.min_r by lia. rewrite iter_xO, Z.sub_diag.
    replace (e - e') with (Zpos d) by lia. split; [lia|reflexivity].
Qed.

Lemma binary_round_faithful m e :
  -1074 <= Zpos (digits2_pos m) + e - 53 ->
  Zpos (digits2_pos m) + e <= 1023 ->
  normal_pos (binary_round prec emax false m e) /\
  faithful (IZR (Zpos m) * bpow e) (SF2R (binary_round prec emax false m e)).
Proof.
  intros Hlo Hhi. unfold binary_round. rewrite fexp_normal by lia.
  set (d := Zpos (digits2_pos m)) in *.
  destruct (shl_align_spec m e (d + e - 53)) as [Hval Hexp].
  destruct (shl_align m e (d + e - 53)) as [mz ez]. cbn [fst snd] in Hval, Hexp.
  subst ez. rewrite Z.sub_diag, Z.mul_1_r in Hval.
  assert (Hv : (IZR (Zpos m) * bpow e = IZR (Zpos mz) * bpow (Z.min e (d + e - 53)))%R).
  { rewrite (scale_down (Zpos m) e (Z.min e (d + e - 53))) by lia.
    rewrite Hval. reflexivity. }
  rewrite Hv.
  pose proof (digits2_pos_bounds m) as Hm. fold d in Hm.
  assert (Hdz : Zpos (digits2_pos mz) = Z.max d 53).
  { apply digits2_pos_unique. rewrite Hval.
    destruct (Z.le_gt_cases 53 d) as [H53|H53].
    - rewrite Z.min_l, Z.max_l, Z.sub_diag by lia. lia.
    - rewrite Z.min_r, Z.max_r by lia.
      replace (e - (d + e - 53)) with (53 - d) by lia.
      replace (2 ^ (53 - 1)) with (2 ^ (d - 1) * 2 ^ (53 - d))
        by (rewrite <- Z.pow_add_r by lia; f_equal; lia).
      replace (2 ^ 53) with (2 ^ d * 2 ^ (53 - d))
        by (rewrite <- Z.pow_add_r by lia; f_equal; lia).
      assert (0 < 2 ^ (53 - d)) by (apply Z.pow_pos_nonneg; lia).
      nia. }
  pose proof (bpow_pos (Z.min e (d + e - 53))).
  apply binary_round_aux_faithful; try lia.
  - rewrite plus_IZR. split; [lra|nra].
  - reflexivity.
Qed.

(** *** Conversion from an integer *)

Lemma of_Z_spec z :
  0 < z < 2 ^ 53 ->
  normal_pos (binary_normalize prec emax z 0 false) /\
  SF2R (binary_normalize prec emax z 0 false) = IZR z.
Proof.
  intros Hz. destruct z as [|p|p]; try lia. cbn [binary_normalize].
  assert (Hd : 1 <= Zpos (digits2_pos p) <= 53).
  { rewrite digits2_pos_log2. pose proof (Z.log2_nonneg (Zpos p)).
    assert (Z.log2 (Zpos p) < 53) by (apply Z.log2_lt_pow2; lia). lia. }
  destruct (binary_round_faithful p 0) as [Hn Hf]; try lia.
  split; [assumption|]. apply faithful_exact in Hf.
  - rewrite Hf. unfold bpow. cbn [powerRZ]. ring.
  - exists (Zpos p), 0. split; [lia|reflexivity].
Qed.

(** *** Addition and subtraction *)

Lemma aligned_value m e e' :
  e' <= e ->
  (IZR (Zpos (fst (shl_align m e e'))) * bpow e' = IZR (Zpos m) * bpow e)%R /\
  Zpos m <= Zpos (fst (shl_align m e e')) /\
  Zpos (fst (shl_align m e e')) = Zpos m * 2 ^ (e - e').
Proof.
  intros He. destruct (shl_align_spec m e e') as [Hv Hs].
  rewrite Hs, Z.min_r, Z.sub_diag, Z.mul_1_r in Hv by lia.
  rewrite (scale_down (Zpos m) e e' He), Hv.
  split; [reflexivity|]. split; [|reflexivity].
  pose proof (Z.pow_pos_nonneg 2 (e - e')). nia.
Qed.

Lemma dadd_spec a b :
  normal_pos a -> normal_pos b -> expo a <= 969 -> expo b <= 969 ->
  normal_pos (SFadd prec emax a b) /\
  faithful (SF2R a + SF2R b) (SF2R (SFadd prec emax a b)).
Proof.
  intros Ha Hb.
  destruct (normal_pos_inv a Ha) as (ma & ea & -> & Hma & Hea).
  destruct (normal_pos_inv b Hb) as (mb & eb & -> & Hmb & Heb).
  cbn [expo SFadd SF2R cond_Zopp]. intros Hxa Hxb.
  set (ez := Z.min ea eb).
  destruct (aligned_value ma ea ez) as (Hva & Hla & Hea'); [unfold ez; lia|].
  destruct (aligned_value mb eb ez) as (Hvb & Hlb & Heb'); [unfold ez; lia|].
  set (ma' := fst (shl_align ma ea ez)) in *.
  set (mb' := fst (shl_align mb eb ez)) in *.
  rewrite <- Hva, <- Hvb, <- Rmult_plus_distr_r, <- plus_IZR.
  change (Zpos ma' + Zpos mb') with (Zpos (ma' + mb')).
  cbn [binary_normalize].
  assert (Hd : 53 <= Zpos (digits2_pos (ma' + mb')) <= 54 + Z.max ea eb - ez).
  { rewrite digits2_pos_log2.
    assert (52 <= Z.log2 (Zpos (ma' + mb'))) by (apply Z.log2_le_pow2; lia).
    assert (Z.log2 (Zpos (ma' + mb')) < 54 + Z.max ea eb - ez).
    { apply Z.log2_lt_pow2; [lia|].
      replace (54 + Z.max ea eb - ez) with (54 + (Z.max ea eb - ez)) by lia.
      rewrite Z.pow_add_r by (unfold ez; lia).
      change (2 ^ 54) with (2 * 2 ^ 53).
      assert (2 ^ (ea - ez) <= 2 ^ (Z.max ea eb - ez))
        by (apply Z.pow_le_mono_r; unfold ez; lia).
      assert (2 ^ (eb - ez) <= 2 ^ (Z.max ea eb - ez))
        by (apply Z.pow_le_mono_r; unfold ez; lia).
      assert (0 < 2 ^ (ea - ez)) by (apply Z.pow_pos_nonneg; unfold ez; lia).
      assert (0 < 2 ^ (eb - ez)) by (apply Z.pow_pos_nonneg; unfold ez; lia).
      rewrite Pos2Z.inj_add, Hea', Heb'. nia. }
    lia. }
  apply binary_round_faithful; unfold ez in *; lia.
Qed.

Lemma dsub_spec a b :
  normal_pos a -> normal_pos b -> (SF2R b < SF2R a)%R ->
  -1022 <= expo a <= 969 -> -1022 <= expo b <= 969 ->
  normal_pos (SFsub prec emax a b) /\
  faithful (SF2R a - SF2R b) (SF2R (SFsub prec emax a b)).
Proof.
  intros Ha Hb.
  destruct (normal_pos_inv a Ha) as (ma & ea & -> & Hma & Hea).
  destruct (normal_pos_inv b Hb) as (mb & eb & -> & Hmb & Heb).
  cbn [expo SFsub SF2R cond_Zopp]. intros Hlt Hxa Hxb.
  set (ez := Z.min ea eb).
  destruct (aligned_value ma ea ez) as (Hva & Hla & Hea'); [unfold ez; lia|].
  destruct (aligned_value mb eb ez) as (Hvb & Hlb & Heb'); [unfold ez; lia|].
  set (ma' := fst (shl_align ma ea ez)) in *.
  set (mb' := fst (shl_align mb eb ez)) in *.
  rewrite <- Hva, <- Hvb in Hlt |- *.
  pose proof (bpow_pos ez) as HB.
  apply Rmult_lt_reg_r in Hlt; [|assumption]. apply lt_IZR in Hlt.
  rewrite <- Rmult_minus_distr_r, <- minus_IZR.
  destruct (Zpos ma' - Zpos mb') as [|m|m] eqn:Hm; try lia.
  cbn [binary_normalize].
  assert (Hd : 1 <= Zpos (digits2_pos m) <= 53 + ea - ez).
  { rewrite digits2_pos_log2. pose proof (Z.log2_nonneg (Zpos m)).
    assert (Z.log2 (Zpos m) < 53 + ea - ez).
    { apply Z.log2_lt_pow2; [lia|].
      replace (53 + ea - ez) with (53 + (ea - ez)) by lia.
      rewrite Z.pow_add_r by (unfold ez; lia).
      assert (0 < 2 ^ (ea - ez)) by (apply Z.pow_pos_nonneg; unfold ez; lia).
      nia. }
    lia. }
  apply binary_round_faithful; unfold ez in *; lia.
Qed.

(** *** Square root *)

Lemma dsqrt_spec a :
  normal_pos a ->
  normal_pos (SFsqrt prec emax a) /\
  faithful (sqrt (SF2R a)) (SF2R (SFsqrt prec emax a)).
Proof.
  intros Ha.
  destruct (normal_pos_inv a Ha) as (m & e & -> & Hm & He).
  destruct Ha as [Hd _].
  cbn [SFsqrt SF2R cond_Zopp]. unfold SFsqrt_core_binary.
  cbn [Zdigits2]. rewrite Hd, !Z.div2_div.
  rewrite fexp_normal by lia_div.
  set (e' := Z.min ((53 + e + 1) / 2 - 53) (e / 2)).
  assert (He' : e' = e / 2 - 26) by (unfold e'; lia_div).
  assert (Hs : e - 2 * e' = 52 \/ e - 2 * e' = 53) by lia_div.
  set (s := e - 2 * e') in *.
  assert (Hm' : (match s with Z.pos _ => Z.shiftl (Zpos m) s | 0 => Zpos m | Z.neg _ => 0 end)
                = Zpos m * 2 ^ s).
  { destruct Hs as [-> | ->]; rewrite Z.shiftl_mul_pow2; lia. }
  rewrite Hm'. clear Hm'.
  assert (Hrange : 2 ^ 104 <= Zpos m * 2 ^ s < 2 ^ 106).
  { destruct Hs as [-> | ->].
    - change (2 ^ 104) with (2 ^ 52 * 2 ^ 52). change (2 ^ 106) with (2 ^ 54 * 2 ^ 52). lia.
    - change (2 ^ 104) with (2 ^ 51 * 2 ^ 53). change (2 ^ 106) with (2 ^ 53 * 2 ^ 53). lia. }
  pose proof (Z.sqrtrem_spec (Zpos m * 2 ^ s)) as Hsq.
  destruct (Z.sqrtrem (Zpos m * 2 ^ s)) as [q r].
  destruct Hsq as [Hq Hr]; [lia|].
  assert (Hqr : 2 ^ 52 <= q < 2 ^ 53).
  { change (2 ^ 104) with (2 ^ 52 * 2 ^ 52) in Hrange.
    change (2 ^ 106) with (2 ^ 53 * 2 ^ 53) in Hrange. nia. }
  destruct q as [|q|q]; try lia.
  assert (Hdq : Zpos (digits2_pos q) = 53) by (apply digits2_pos_unique; lia).
  pose proof (bpow_pos e') as HB.
  assert (Hv : sqrt (IZR (Zpos m) * bpow e) = (sqrt (IZR (Zpos m * 2 ^ s)) * bpow e')%R).
  { rewrite <- (sqrt_square (bpow e')) at 1 by lra.
    rewrite <- sqrt_mult_alt by (apply IZR_le; lia).
    f_equal. rewrite (scale_down (Zpos m) e (e - s)) by lia.
    replace (e - (e - s)) with s by lia.
    rewrite <- bpow_add. do 2 f_equal. unfold s. lia. }
  rewrite Hv. clear Hv. rewrite Hq.
  assert (Hsq : (IZR (Zpos q) <= sqrt (IZR (Zpos q * Zpos q + r)) < IZR (Zpos q + 1))%R).
  { assert (Hq0 : (0 <= IZR (Zpos q))%R) by (apply IZR_le; lia).
    assert (Hq1 : (0 <= IZR (Zpos q + 1))%R) by (apply IZR_le; lia).
    rewrite <- (sqrt_square (IZR (Zpos q))) at 1 by assumption.
    rewrite <- (sqrt_square (IZR (Zpos q + 1))) by assumption.
    rewrite <- !mult_IZR. split.
    - apply sqrt_le_1_alt. apply IZR_le. lia.
    - apply sqrt_lt_1_alt. split; apply IZR_le || apply IZR_lt; nia. }
  apply binary_round_aux_faithful; try lia.
  - split; nra.
  - intros Heq.
    assert (Hroot : sqrt (IZR (Zpos q * Zpos q + r)) = IZR (Zpos q)) by nra.
    assert (Hsqr : (IZR (Zpos q * Zpos q + r) = IZR (Zpos q) * IZR (Zpos q))%R).
    { rewrite <- Hroot. rewrite sqrt_sqrt; [reflexivity|]. apply IZR_le. lia. }
    rewrite <- mult_IZR in Hsqr. apply eq_IZR in Hsqr.
    replace r with 0 by lia. reflexivity.
Qed.

(** *** Comparison *)

Lemma SFltb_spec a b :
  normal_pos a -> normal_pos b ->
  if SFltb a b then (SF2R a < SF2R b)%R else (SF2R b <= SF2R a)%R.
Proof.
  intros Ha Hb.
  pose proof (normal_pos_bounds a Ha) as Hba.
  pose proof (normal_pos_bounds b Hb) as Hbb.
  destruct (normal_pos_inv a Ha) as (ma & ea & -> & Hma & Hea).
  destruct (normal_pos_inv b Hb) as (mb & eb & -> & Hmb & Heb).
  cbn [expo] in Hba, Hbb. unfold SFltb. cbn [SFcompare SF2R cond_Zopp] in *.
  destruct (Z.compare_spec ea eb) as [Heq|Hlt|Hgt].
  - subst eb. pose proof (bpow_pos ea).
    change (Pos.compare_cont Eq ma mb) with (Pos.compare ma mb).
    destruct (Pos.compare_spec ma mb) as [Hm|Hm|Hm].
    + subst mb. lra.
    + apply Pos2Z.pos_lt_pos, IZR_lt in Hm. nra.
    + apply Pos2Z.pos_lt_pos, IZR_lt in Hm. nra.
  - assert (bpow (ea + 53) <= bpow (eb + 52))%R by (apply bpow_le; lia). lra.
  - assert (bpow (eb + 53) <= bpow (ea + 52))%R by (apply bpow_le; lia). lra.
Qed.

(** *** Truncation to an integer *)

Lemma shiftl_floor m e r :
  (IZR r <= IZR (Zpos m) * bpow e < IZR (r + 1))%R -> Z.shiftl (Zpos m) e = r.
Proof.
  intros [Hlo Hhi]. destruct (Z.le_gt_cases 0 e) as [He|He].
  - rewrite Z.shiftl_mul_pow2 by lia.
    rewrite (bpow_IZR e He), <- mult_IZR in Hlo, Hhi.
    apply le_IZR in Hlo. apply lt_IZR in Hhi. lia.
  - rewrite <- (Z.opp_involutive e) at 1. rewrite Z.shiftl_opp_r, Z.shiftr_div_pow2 by lia.
    assert (HB : (bpow e * IZR (2 ^ (- e)) = 1)%R).
    { rewrite <- bpow_IZR, <- bpow_add by lia. replace (e + - e) with 0 by lia. reflexivity. }
    assert (Hp : 0 < 2 ^ (- e)) by (apply Z.pow_pos_nonneg; lia).
    assert (HpR : (0 < IZR (2 ^ (- e)))%R) by (apply IZR_lt; assumption).
    assert (H1 : (IZR (r * 2 ^ (- e)) <= IZR (Zpos m))%R).
    { rewrite mult_IZR. apply Rmult_le_compat_r with (r := IZR (2 ^ (- e))) in Hlo; [|lra].
      rewrite Rmult_assoc, HB in Hlo. lra. }
    assert (H2 : (IZR (Zpos m) < IZR ((r + 1) * 2 ^ (- e)))%R).
    { rewrite mult_IZR. apply Rmult_lt_compat_r with (r := IZR (2 ^ (- e))) in Hhi; [|lra].
      rewrite Rmult_assoc, HB in Hhi. lra. }
    apply le_IZR in H1. apply lt_IZR in H2.
    symmetry. apply Z.div_unique with (Zpos m - r * 2 ^ (- e)); lia.
Qed.

(** ** mySqrt: the Newton iteration *)

Lemma F53_IZR z : 0 <= z <= 2 ^ 53 -> F53 (IZR z).
Proof.
  intros H. exists z, 0. split; [assumption|]. unfold bpow. cbn [powerRZ]. ring.
Qed.

Lemma F53_scaled z k : 0 <= z <= 2 ^ 53 -> 0 <= k -> F53 (IZR z / IZR (2 ^ k)).
Proof.
  intros H Hk. exists z, (- k). split; [assumption|].
  unfold Rdiv. f_equal. unfold bpow. rewrite powerRZ_neg', <- bpow_IZR by lia.
  reflexivity.
Qed.

Lemma d0_1_normal : normal_pos d0_1.
Proof. split; [reflexivity|lia]. Qed.

Lemma d0_1_bounds : (1 / 16 <= SF2R d0_1 <= 1 / 8)%R.
Proof.
  cbn [SF2R d0_1 cond_Zopp].
  assert (H : (bpow (-56) * IZR (2 ^ 56) = 1)%R).
  { rewrite <- bpow_IZR, <- bpow_add by lia. reflexivity. }
  pose proof (bpow_pos (-56)). change (2 ^ 56) with 72057594037927936 in H.
  split; nra.
Qed.

Lemma Rdiv_ge g y z : (0 < z)%R -> (g * z <= y)%R -> (g <= y / z)%R.
Proof.
  intros Hz H. apply Rmult_le_reg_r with z; [assumption|].
  unfold Rdiv. rewrite Rmult_assoc, Rinv_l; lra.
Qed.

Lemma Rdiv_le g y z : (0 < z)%R -> (y <= g * z)%R -> (y / z <= g)%R.
Proof.
  intros Hz H. apply Rmult_le_reg_r with z; [assumption|].
  unfold Rdiv. rewrite Rmult_assoc, Rinv_l; lra.
Qed.

Lemma normal_pos_half f : normal_pos f -> F53 (SF2R f / 2).
Proof.
  intros H. destruct (normal_pos_inv f H) as (m & e & -> & Hm & He).
  exists (Zpos m), (e - 1). split; [lia|]. cbn [SF2R cond_Zopp].
  replace e with (e - 1 + 1) at 1 by lia. rewrite bpow_add, (bpow_IZR 1) by lia.
  change (2 ^ 1) with 2. field.
Qed.

Lemma two_spec : normal_pos (of_Z 2) /\ SF2R (of_Z 2) = 2%R /\ expo (of_Z 2) = -51.
Proof.
  destruct (of_Z_spec 2) as [Hn Hv]; [lia|].
  split; [assumption|]. split; [assumption|reflexivity].
Qed.

(** One Newton step in real numbers, with both roundings at most one
    part in [2^52] upwards: the excess [a*a - x] at least halves while it is
    above [1/16]. *)
Local Open Scope R_scope.

Lemma newton_halves (A q X Qf Sf rho : R) :
  0 < A -> 0 <= q -> q * A = X -> X + 1 / 16 < A * A -> X <= 2147483647 ->
  0 < rho -> rho * 4503599627370496 = 1 ->
  0 <= Qf <= q * (1 + rho) -> 0 <= Sf <= (A + Qf) * (1 + rho) ->
  (Sf / 2) * (Sf / 2) - X <= (A * A - X) / 2.
Proof.
  intros HA Hq HqA HE HX Hrho Hrho52 [HQ0 HQ] [HS0 HS].
  set (N := (A + q) / 2).
  set (E := A * A - X).
  assert (HqA' : q < A) by nra.
  assert (HN0 : 0 < N) by (unfold N; lra).
  assert (Hr2 : (1 + rho) * (1 + rho) <= 1 + 3 * rho) by nra.
  assert (H1 : Sf / 2 <= N * ((1 + rho) * (1 + rho))).
  { assert (A + Qf <= (A + q) * (1 + rho)) by nra.
    assert ((A + Qf) * (1 + rho) <= (A + q) * (1 + rho) * (1 + rho)) by nra.
    unfold N. lra. }
  assert (H1' : Sf / 2 <= N * (1 + 3 * rho)) by nra.
  assert (HNN : N * N - X = (A - q) * (A - q) / 4).
  { unfold N. rewrite <- HqA. field. }
  assert (HE4 : (A - q) * (A - q) <= E).
  { unfold E. rewrite <- HqA. nra. }
  assert (HNX : N * N <= X + E / 4) by lra.
  assert (Hr4 : (1 + 3 * rho) * (1 + 3 * rho) <= 1 + 7 * rho) by nra.
  assert (H2 : (Sf / 2) * (Sf / 2) <= N * N * (1 + 7 * rho)).
  { assert (0 <= Sf / 2) by lra.
    assert ((Sf / 2) * (Sf / 2) <= (N * (1 + 3 * rho)) * (N * (1 + 3 * rho))) by nra.
    assert (0 <= N * N) by nra. nra. }
  assert (H3 : N * N * (1 + 7 * rho) <= (X + E / 4) * (1 + 7 * rho)) by nra.
  assert (HE16 : 1 / 16 < E) by (unfold E; lra).
  assert (HX0 : 0 <= X) by nra.
  assert (HrX : rho * X <= 2147483647 * rho) by nra.
  fold E. nra.
Qed.

Local Close Scope R_scope.

Section MySqrt.
Variable x : Z.
Hypothesis Hx : 1 <= x <= INT_MAX.

Local Abbreviation r := (Z.sqrt x).

Lemma sqrt_r_bounds : 1 <= r /\ r * r <= x < (r + 1) * (r + 1) /\ r < 2 ^ 16.
Proof.
  unfold INT_MAX in Hx.
  assert (H : r * r <= x < Z.succ r * Z.succ r) by (apply Z.sqrt_spec; lia).
  assert (0 <= r) by apply Z.sqrt_nonneg.
  split; [|split]; [nia|lia|].
  destruct (Z.lt_ge_cases r (2 ^ 16)); [assumption|].
  assert (2 ^ 16 * 2 ^ 16 <= r * r) by nia. lia.
Qed.

Lemma of_Z_x_spec :
  normal_pos (of_Z x) /\ SF2R (of_Z x) = IZR x /\ -52 <= expo (of_Z x) <= -21.
Proof.
  unfold INT_MAX in Hx.
  destruct (of_Z_spec x) as [Hn Hv]; [lia|]. fold (of_Z x) in Hn, Hv.
  split; [assumption|]. split; [assumption|]. split.
  - apply (normal_pos_expo_ge _ 0); [assumption|]. rewrite Hv.
    change (bpow 0) with 1%R. apply IZR_le. lia.
  - apply (normal_pos_expo_le _ 31); [assumption|]. rewrite Hv, bpow_IZR by lia.
    apply IZR_le. lia.
Qed.

(** [x + 0.1] is between [x + 1/16] and [x + 1/8]. *)
Lemma threshold_spec :
  normal_pos (dadd (of_Z x) d0_1) /\
  (IZR x + 1 / 16 <= SF2R (dadd (of_Z x) d0_1) <= IZR x + 1 / 8)%R.
Proof.
  unfold INT_MAX in Hx.
  destruct of_Z_x_spec as (Hn & Hv & He).
  destruct (dadd_spec (of_Z x) d0_1) as [Hn' Hf];
    [assumption|apply d0_1_normal|lia|cbn; lia|].
  split; [assumption|]. rewrite Hv in Hf. pose proof d0_1_bounds as Hd.
  assert (H16 : (IZR (16 * x + 1) / IZR (2 ^ 4) = IZR x + 1 / 16)%R).
  { rewrite plus_IZR, mult_IZR. change (2 ^ 4) with 16. lra. }
  assert (H8 : (IZR (8 * x + 1) / IZR (2 ^ 3) = IZR x + 1 / 8)%R).
  { rewrite plus_IZR, mult_IZR. change (2 ^ 3) with 8. lra. }
  rewrite <- H16, <- H8. unfold dadd. split.
  - apply (faithful_ge _ _ _ Hf); [apply F53_scaled; lia|lra].
  - apply (faithful_le _ _ _ Hf); [apply F53_scaled; lia|lra].
Qed.

Lemma sqrt_inv_expo a : sqrt_inv x a -> -52 <= expo a <= -22.
Proof.
  intros [Hn [Hlo Hhi]]. destruct sqrt_r_bounds as (Hr & _).
  split.
  - apply (normal_pos_expo_ge _ 0); [assumption|].
    change (bpow 0) with 1%R. apply IZR_le in Hr. lra.
  - apply (normal_pos_expo_le _ 30); assumption.
Qed.

Lemma square_spec a :
  sqrt_inv x a ->
  normal_pos (dmul a a) /\ faithful (SF2R a * SF2R a) (SF2R (dmul a a)).
Proof.
  intros Hinv. pose proof (sqrt_inv_expo a Hinv). destruct Hinv as [Hn _].
  apply dmul_spec; try assumption. lia.
Qed.

(** While the loop runs, [a*a] exceeds [x] by more than [1/16]. *)
Lemma sqrt_cond_true a :
  sqrt_inv x a -> sqrt_cond x a = true ->
  (IZR x + 1 / 16 < SF2R a * SF2R a)%R.
Proof.
  unfold INT_MAX in Hx.
  intros Hinv Hc. destruct (square_spec a Hinv) as [Hn Hf].
  destruct threshold_spec as [Hnt [Hlo _]].
  unfold sqrt_cond, dgt in Hc.
  pose proof (SFltb_spec _ _ Hnt Hn) as Hlt. rewrite Hc in Hlt.
  destruct (Rlt_le_dec (IZR x + 1 / 16) (SF2R a * SF2R a)) as [|Hle]; [assumption|].
  exfalso.
  assert (H16 : (IZR (16 * x + 1) / IZR (2 ^ 4) = IZR x + 1 / 16)%R).
  { rewrite plus_IZR, mult_IZR. change (2 ^ 4) with 16. lra. }
  assert (SF2R (dmul a a) <= IZR (16 * x + 1) / IZR (2 ^ 4))%R.
  { apply (faithful_le _ _ _ Hf); [apply F53_scaled; lia|lra]. }
  lra.
Qed.

(** When the loop leaves, [a] is below [floor (sqrt x) + 1]. *)
Lemma sqrt_cond_false a :
  sqrt_inv x a -> sqrt_cond x a = false -> (SF2R a < IZR (r + 1))%R.
Proof.
  intros Hinv Hc. destruct (square_spec a Hinv) as [Hn Hf].
  destruct threshold_spec as [Hnt [_ Hhi]].
  destruct sqrt_r_bounds as (Hr1 & Hr2 & Hr3).
  unfold sqrt_cond, dgt in Hc.
  pose proof (SFltb_spec _ _ Hnt Hn) as Hle. rewrite Hc in Hle.
  destruct (Rlt_le_dec (SF2R a) (IZR (r + 1))) as [|Hge]; [assumption|].
  exfalso.
  assert (Hsq : (IZR ((r + 1) * (r + 1)) <= SF2R (dmul a a))%R).
  { apply (faithful_ge _ _ _ Hf).
    - apply F53_IZR. nia.
    - rewrite mult_IZR. assert (0 < IZR (r + 1))%R by (apply IZR_lt; lia). nra. }
  assert (IZR (x + 1) <= IZR ((r + 1) * (r + 1)))%R by (apply IZR_le; lia).
  rewrite plus_IZR in H. lra.
Qed.

(** One iteration keeps the invariant: with [r = floor (sqrt x)], the
    quotient is at least [2r - a] (a representable number below [x/a]), so
    the new iterate is at least [r]; the quotient is at most [a] less two
    units in the last place, so the new iterate is strictly smaller; and
    the excess over [x] at least halves. *)
Lemma sqrt_step_spec a :
  sqrt_inv x a -> sqrt_cond x a = true ->
  sqrt_inv x (sqrt_step x a) /\ (SF2R (sqrt_step x a) < SF2R a)%R /\
  (SF2R (sqrt_step x a) * SF2R (sqrt_step x a) - IZR x
   <= (SF2R a * SF2R a - IZR x) / 2)%R.
Proof.
  unfold INT_MAX in Hx.
  intros Hinv Hc.
  pose proof (sqrt_cond_true a Hinv Hc) as Hsq.
  pose proof (sqrt_inv_expo a Hinv) as Hea.
  destruct of_Z_x_spec as (HnX & HvX & HeX).
  destruct sqrt_r_bounds as (Hr1 & Hr2 & Hr3).
  destruct Hinv as [Hna [Hlo Hhi]].
  unfold sqrt_step.
  destruct (ddiv_spec (of_Z x) a HnX Hna) as [HnQ HfQ]; [lia|].
  rewrite HvX in HfQ. fold (ddiv (of_Z x) a) in HnQ, HfQ.
  set (Q := ddiv (of_Z x) a) in *.
  destruct (normal_pos_inv a Hna) as (ma & ea & Ha & Hma & _).
  subst a. cbn [expo] in Hea. cbn [SF2R cond_Zopp] in Hlo, Hhi, Hsq, HfQ |- *.
  pose proof (bpow_pos ea) as Hu. set (u := bpow ea) in *.
  assert (HMa : (IZR (2 ^ 52) <= IZR (Zpos ma) < IZR (2 ^ 53))%R)
    by (split; [apply IZR_le|apply IZR_lt]; lia).
  change (2 ^ 52) with 4503599627370496 in HMa.
  change (2 ^ 53) with 9007199254740992 in HMa.
  set (Ma := IZR (Zpos ma)) in *.
  assert (HR1 : (1 <= IZR r)%R) by (apply IZR_le; lia).
  assert (HRx : (IZR (r * r) <= IZR x <= 2147483647)%R)
    by (split; apply IZR_le; lia).
  rewrite mult_IZR in HRx.
  assert (HA : (0 < Ma * u)%R) by nra.
  pose proof (normal_pos_bounds Q HnQ) as HQpos. pose proof (bpow_pos (expo Q + 52)).
  (* the quotient: at most [x], at least [2r - a], at most [a - 2 ulp] *)
  assert (HQx : (SF2R Q <= IZR x)%R).
  { apply (faithful_le _ _ _ HfQ); [apply F53_IZR; lia|].
    apply Rdiv_le; [assumption|]. nra. }
  assert (HQlo : (IZR (2 * r) - Ma * u <= SF2R Q)%R).
  { destruct (Rle_lt_dec (IZR (2 * r) - Ma * u) 0) as [|Hpos]; [lra|].
    pose proof (bpow_inv_IZR ea ltac:(lia)) as Hinv. fold u in Hinv.
    assert (Hg : (IZR (2 * r * 2 ^ (- ea) - Zpos ma) * u = IZR (2 * r) - Ma * u)%R).
    { rewrite minus_IZR, (mult_IZR (2 * r)). fold Ma.
      rewrite Rmult_minus_distr_r, Rmult_assoc, (Rmult_comm _ u), Hinv. ring. }
    rewrite <- Hg. apply (faithful_ge _ _ _ HfQ).
    - exists (2 * r * 2 ^ (- ea) - Zpos ma), ea. split; [|reflexivity].
      assert (H0 : (IZR 0 < IZR (2 * r * 2 ^ (- ea) - Zpos ma))%R).
      { apply Rmult_lt_reg_r with u; [assumption|]. rewrite Hg. lra. }
      assert (H1 : (IZR (2 * r * 2 ^ (- ea) - Zpos ma) <= IZR (Zpos ma))%R).
      { apply Rmult_le_reg_r with u; [assumption|]. rewrite Hg. fold Ma.
        rewrite mult_IZR. lra. }
      apply lt_IZR in H0. apply le_IZR in H1. lia.
    - rewrite Hg. apply Rdiv_ge; [assumption|]. rewrite mult_IZR. nra. }
  assert (HQhi : (SF2R Q <= IZR (Zpos ma - 2) * u)%R).
  { apply (faithful_le _ _ _ HfQ); [exists (Zpos ma - 2), ea; split; [lia|reflexivity]|].
    apply Rdiv_le; [assumption|]. rewrite minus_IZR. fold Ma.
    destruct (Z.le_gt_cases ea (-29)) as [Hsmall|Hbig].
    - assert (Hu29 : (u <= bpow (-29))%R) by (apply bpow_le; assumption).
      pose proof (bpow_inv_IZR (-29) ltac:(lia)) as H29.
      change (2 ^ (- -29)) with 536870912 in H29.
      pose proof (bpow_pos (-29)). set (c29 := bpow (-29)) in *.
      assert (u * u <= c29 * c29)%R by nra.
      assert (c29 * c29 * 288230376151711744 = 1)%R.
      { transitivity ((c29 * 536870912) * (c29 * 536870912))%R; [ring|].
        rewrite H29. ring. }
      assert (Ma * (u * u) <= 9007199254740992 * (c29 * c29))%R by nra.
      nra.
    - assert (Hu28 : (bpow (-28) <= u)%R) by (apply bpow_le; lia).
      pose proof (bpow_inv_IZR (-28) ltac:(lia)) as H28.
      change (2 ^ (- -28)) with 268435456 in H28.
      pose proof (bpow_pos (-28)). set (c28 := bpow (-28)) in *.
      assert (16777216 <= Ma * u)%R by nra.
      assert (8388608 <= (Ma - 2) * u)%R by nra.
      nra. }
  (* the sum *)
  destruct (dadd_spec (S754_finite false ma ea) Q Hna HnQ) as [HnS HfS].
  { cbn [expo]. lia. }
  { assert (expo Q <= 31 - 52); [|lia].
    apply (normal_pos_expo_le _ 31); [assumption|]. rewrite bpow_IZR by lia.
    change (2 ^ 31) with 2147483648. lra. }
  cbn [SF2R cond_Zopp] in HfS. fold Ma u in HfS.
  fold (dadd (S754_finite false ma ea) Q) in HnS, HfS.
  set (sm := dadd (S754_finite false ma ea) Q) in *.
  assert (HSlo : (IZR (2 * r) <= SF2R sm)%R).
  { apply (faithful_ge _ _ _ HfS); [apply F53_IZR; lia|lra]. }
  assert (HShi : (SF2R sm <= IZR (Zpos ma - 1) * bpow (ea + 1))%R).
  { apply (faithful_le _ _ _ HfS);
      [exists (Zpos ma - 1), (ea + 1); split; [lia|reflexivity]|].
    rewrite bpow_add, (bpow_IZR 1), minus_IZR by lia. change (2 ^ 1) with 2.
    fold Ma u. rewrite minus_IZR in HQhi. fold Ma in HQhi. lra. }
  rewrite bpow_add, (bpow_IZR 1), minus_IZR in HShi by lia. change (2 ^ 1) with 2 in HShi.
  fold Ma u in HShi. rewrite mult_IZR in HSlo.
  (* halving is exact *)
  destruct two_spec as (Hn2 & Hv2 & He2).
  destruct (ddiv_spec sm (of_Z 2) HnS Hn2) as [HnA HfA].
  { rewrite He2.
    assert (-52 <= expo sm).
    { apply (normal_pos_expo_ge _ 0); [assumption|]. change (bpow 0) with 1%R. lra. }
    pose proof (normal_pos_inv sm HnS) as (mS & eS & HS & _ & HeS).
    rewrite HS in *. cbn [expo] in *. lia. }
  rewrite Hv2 in HfA. apply faithful_exact in HfA; [|apply normal_pos_half; assumption].
  fold (ddiv sm (of_Z 2)) in HnA, HfA. rewrite HfA.
  split; [split; [assumption|lra]|]. split; [lra|].
  pose proof (bpow_inv_IZR (-52) ltac:(lia)) as Hrho.
  change (2 ^ (- -52)) with 4503599627370496 in Hrho.
  pose proof (normal_pos_bounds sm HnS) as HSpos.
  pose proof (bpow_pos (expo sm + 52)).
  assert (Hq0 : (0 < IZR x / (Ma * u))%R).
  { apply Rdiv_lt_0_compat; [|assumption]. apply IZR_lt. lia. }
  assert (HqA : (IZR x / (Ma * u) * (Ma * u) = IZR x)%R) by (field; lra).
  pose proof (bpow_pos (-52)) as Hrho0.
  pose proof (faithful_rel _ _ HfQ) as HQrel.
  pose proof (faithful_rel _ _ HfS) as HSrel.
  apply (newton_halves (Ma * u) (IZR x / (Ma * u)) (IZR x)
           (SF2R Q) (SF2R sm) (bpow (-52)));
    solve [assumption | lra | split; [lra|assumption]].
Qed.

Lemma sqrt_init_spec :
  sqrt_inv x (sqrt_init x) /\ SF2R (sqrt_init x) = IZR (1 + x / 2).
Proof.
  unfold INT_MAX in Hx. destruct sqrt_r_bounds as (Hr1 & Hr2 & Hr3).
  unfold sqrt_init. rewrite Z.quot_div_nonneg by lia.
  rewrite (to_int_id (x / 2)) by (unfold INT_MIN, INT_MAX; lia_div).
  rewrite to_int_id by (unfold INT_MIN, INT_MAX; lia_div).
  destruct (of_Z_spec (1 + x / 2)) as [Hn Hv]; [lia_div|].
  fold (of_Z (1 + x / 2)) in Hn, Hv.
  split; [|assumption]. split; [assumption|]. rewrite Hv. split.
  - apply IZR_le.
    assert (x < 2 * (x / 2) + 2) by lia_div.
    destruct (Z.le_gt_cases r (1 + x / 2)); [assumption|]. nia.
  - rewrite bpow_IZR by lia. apply IZR_le.
    change (2 ^ 30) with 1073741824. lia_div.
Qed.

(** The truncation of the last iterate. *)
Lemma sqrt_exit_spec a :
  sqrt_inv x a -> sqrt_cond x a = false -> double_to_int a = r.
Proof.
  unfold INT_MAX in Hx.
  intros Hinv Hc. pose proof (sqrt_cond_false a Hinv Hc) as Hlt.
  destruct sqrt_r_bounds as (Hr1 & Hr2 & Hr3).
  destruct Hinv as [Hn [Hlo _]].
  destruct (normal_pos_inv a Hn) as (m & e & -> & Hm & He).
  cbn [SF2R cond_Zopp] in Hlo, Hlt.
  unfold double_to_int. cbn [trunc cond_Zopp].
  rewrite (shiftl_floor m e r) by (split; assumption).
  replace (INT_MIN <=? r) with true
    by (symmetry; apply Z.leb_le; unfold INT_MIN; lia).
  replace (r <=? INT_MAX) with true
    by (symmetry; apply Z.leb_le; unfold INT_MAX; lia).
  reflexivity.
Qed.

(** The excess [a*a - x] halves at each iteration, so the loop leaves
    within [k] iterations of an excess of at most [2^k / 32]. *)
Lemma sqrt_loop_bounded k : forall a,
  sqrt_inv x a -> (SF2R a * SF2R a - IZR x <= 2 ^ k / 32)%R ->
  exists a', sqrt_loop (S k) x a = Some a' /\
    sqrt_inv x a' /\ sqrt_cond x a' = false.
Proof.
  induction k as [|k IH]; intros a Hinv HE.
  - destruct (sqrt_cond x a) eqn:Hc.
    + pose proof (sqrt_cond_true a Hinv Hc). cbn [pow] in HE. lra.
    + exists a. cbn [sqrt_loop]. rewrite Hc. auto.
  - destruct (sqrt_cond x a) eqn:Hc.
    + destruct (sqrt_step_spec a Hinv Hc) as (Hinv' & _ & Hhalf).
      destruct (IH (sqrt_step x a) Hinv') as (a' & Hrun & Ha' & Hc').
      { cbn [pow] in HE. lra. }
      exists a'. change (sqrt_loop (S (S k)) x a)
        with (if sqrt_cond x a then sqrt_loop (S k) x (sqrt_step x a) else Some a).
      rewrite Hc. auto.
    + exists a. cbn [sqrt_loop]. rewrite Hc. auto.
Qed.

Lemma sqrt_init_excess :
  (SF2R (sqrt_init x) * SF2R (sqrt_init x) - IZR x <= 2 ^ 65 / 32)%R.
Proof.
  destruct sqrt_init_spec as [[_ [_ Hhi]] _].
  pose proof (normal_pos_bounds _ (proj1 (proj1 sqrt_init_spec))) as Hpos.
  pose proof (bpow_pos (expo (sqrt_init x) + 52)).
  rewrite bpow_IZR in Hhi by lia. change (2 ^ 30) with 1073741824 in Hhi.
  assert (0 <= IZR x)%R by (apply IZR_le; lia).
  rewrite (pow_IZR 2 65). change (2 ^ Z.of_nat 65) with 36893488147419103232.
  nra.
Qed.

End MySqrt.

(** ** arrangeCoins: the estimate and its correction *)

Lemma coins_rows_spec n :
  0 <= n ->
  0 <= coins_rows n /\
  coins_rows n * (coins_rows n + 1) <= 2 * n < (coins_rows n + 1) * (coins_rows n + 2).
Proof.
  intros Hn. unfold coins_rows.
  assert (H : Z.sqrt (8 * n + 1) * Z.sqrt (8 * n + 1) <= 8 * n + 1
              < Z.succ (Z.sqrt (8 * n + 1)) * Z.succ (Z.sqrt (8 * n + 1)))
    by (apply Z.sqrt_spec; lia).
  pose proof (Z.sqrt_le_mono 1 (8 * n + 1) ltac:(lia)) as Hs.
  change (Z.sqrt 1) with 1 in Hs.
  set (R := Z.sqrt (8 * n + 1)) in *. set (k := (R - 1) / 2).
  assert (Hk : 2 * k + 1 <= R < 2 * k + 3) by (unfold k; lia_div).
  split; [unfold k; lia_div|]. nia.
Qed.

Lemma one_spec : normal_pos (of_Z 1) /\ SF2R (of_Z 1) = 1%R /\ expo (of_Z 1) = -52.
Proof.
  destruct (of_Z_spec 1) as [Hn Hv]; [lia|].
  split; [assumption|]. split; [assumption|reflexivity].
Qed.

Section ArrangeCoins.
Variable n : Z.
Hypothesis Hn : 1 <= n <= INT_MAX.

Local Abbreviation k := (coins_rows n).

Lemma coins_k_bounds :
  1 <= k < 2 ^ 16 /\ k * (k + 1) <= 2 * n < (k + 1) * (k + 2).
Proof.
  unfold INT_MAX in Hn.
  destruct (coins_rows_spec n) as [H0 H1]; [lia|].
  split; [|assumption]. split; [nia|].
  destruct (Z.lt_ge_cases k (2 ^ 16)); [assumption|].
  assert (2 ^ 16 * 2 ^ 16 <= k * k) by nia. lia.
Qed.

(** The estimate: [sqrt] is rounded between [2k+1] and [2k+3], so the
    estimate is [k+1] or [k+2]. *)
Lemma coins_init_spec : k + 1 <= coins_init n <= k + 2.
Proof.
  unfold INT_MAX in Hn.
  destruct coins_k_bounds as [Hk Hkn].
  unfold coins_init, coins_radicand.
  rewrite (to_long_id (8 * n)) by lia. rewrite to_long_id by lia.
  (* the argument of sqrt *)
  destruct (of_Z_spec (8 * n + 1)) as [HnN HvN]; [lia|].
  fold (of_Z (8 * n + 1)) in HnN, HvN.
  (* s = sqrt(8n+1) *)
  destruct (dsqrt_spec _ HnN) as [Hns Hfs]. rewrite HvN in Hfs.
  fold (dsqrt (of_Z (8 * n + 1))) in Hns, Hfs.
  set (s := dsqrt (of_Z (8 * n + 1))) in *.
  assert (H0 : (0 <= IZR (8 * n + 1))%R) by (apply IZR_le; lia).
  assert (Hslo : (IZR (2 * k + 1) <= SF2R s)%R).
  { apply (faithful_ge _ _ _ Hfs); [apply F53_IZR; lia|].
    rewrite <- (sqrt_square (IZR (2 * k + 1))) by (apply IZR_le; lia).
    apply sqrt_le_1_alt. rewrite <- mult_IZR. apply IZR_le. nia. }
  assert (Hshi : (SF2R s <= IZR (2 * k + 3))%R).
  { apply (faithful_le _ _ _ Hfs); [apply F53_IZR; lia|].
    rewrite <- (sqrt_square (IZR (2 * k + 3))) by (apply IZR_le; lia).
    apply sqrt_le_1_alt. rewrite <- mult_IZR. apply IZR_le. nia. }
  rewrite plus_IZR, mult_IZR in Hslo, Hshi.
  assert (HRk : (1 <= IZR k <= 65535)%R) by (split; apply IZR_le; lia).
  (* t = s - 1 *)
  destruct one_spec as (Hn1 & Hv1 & He1).
  destruct (dsub_spec s (of_Z 1) Hns Hn1) as [Hnt Hft].
  { rewrite Hv1. lra. }
  { split.
    - assert (0 - 52 <= expo s); [|lia].
      apply normal_pos_expo_ge; [assumption|]. change (bpow 0) with 1%R. lra.
    - assert (expo s <= 18 - 52); [|lia].
      apply normal_pos_expo_le; [assumption|]. rewrite bpow_IZR by lia.
      change (2 ^ 18) with 262144. lra. }
  { rewrite He1. lia. }
  rewrite Hv1 in Hft. fold (dsub s (of_Z 1)) in Hnt, Hft.
  set (t := dsub s (of_Z 1)) in *.
  assert (Htlo : (IZR (2 * k) <= SF2R t)%R).
  { apply (faithful_ge _ _ _ Hft); [apply F53_IZR; lia|]. rewrite mult_IZR. lra. }
  assert (Hthi : (SF2R t <= IZR (2 * k + 2))%R).
  { apply (faithful_le _ _ _ Hft); [apply F53_IZR; lia|].
    rewrite plus_IZR, mult_IZR. lra. }
  rewrite mult_IZR in Htlo. rewrite plus_IZR, mult_IZR in Hthi.
  (* h = t / 2, exactly *)
  destruct two_spec as (Hn2 & Hv2 & He2).
  destruct (ddiv_spec t (of_Z 2) Hnt Hn2) as [Hnh Hfh].
  { rewrite He2.
    assert (0 - 52 <= expo t)
      by (apply normal_pos_expo_ge; [assumption|]; change (bpow 0) with 1%R; lra).
    assert (expo t <= 18 - 52).
    { apply normal_pos_expo_le; [assumption|]. rewrite bpow_IZR by lia.
      change (2 ^ 18) with 262144. lra. }
    lia. }
  rewrite Hv2 in Hfh. apply faithful_exact in Hfh; [|apply normal_pos_half; assumption].
  fold (ddiv t (of_Z 2)) in Hnh, Hfh. set (h := ddiv t (of_Z 2)) in *.
  (* w = h + 1 *)
  destruct (dadd_spec h (of_Z 1) Hnh Hn1) as [Hnw Hfw].
  { assert (expo h <= 17 - 52); [|lia].
    apply normal_pos_expo_le; [assumption|]. rewrite bpow_IZR by lia.
    change (2 ^ 17) with 131072. lra. }
  { rewrite He1. lia. }
  rewrite Hv1, Hfh in Hfw. fold (dadd h (of_Z 1)) in Hnw, Hfw.
  set (w := dadd h (of_Z 1)) in *.
  assert (Hwlo : (IZR (k + 1) <= SF2R w)%R).
  { apply (faithful_ge _ _ _ Hfw); [apply F53_IZR; lia|]. rewrite plus_IZR. lra. }
  assert (Hwhi : (SF2R w <= IZR (k + 2))%R).
  { apply (faithful_le _ _ _ Hfw); [apply F53_IZR; lia|]. rewrite plus_IZR. lra. }
  (* truncation *)
  destruct (normal_pos_inv w Hnw) as (mw & ew & Hw & _ & _).
  rewrite Hw in *. cbn [SF2R cond_Zopp] in Hwlo, Hwhi.
  unfold double_to_long. cbn [trunc cond_Zopp].
  assert (Hi : k + 1 <= Z.shiftl (Zpos mw) ew <= k + 2).
  { destruct (Rlt_le_dec (IZR (Zpos mw) * bpow ew) (IZR (k + 2))) as [Hlt|Hge].
    - rewrite (shiftl_floor mw ew (k + 1)); [lia|].
      replace (k + 1 + 1) with (k + 2) by lia. split; assumption.
    - rewrite (shiftl_floor mw ew (k + 2)); [lia|].
      split; [assumption|]. rewrite (plus_IZR (k + 2)). lra. }
  replace (LONG_MIN <=? Z.shiftl (Zpos mw) ew) with true
    by (symmetry; apply Z.leb_le; unfold LONG_MIN; lia).
  replace (Z.shiftl (Zpos mw) ew <? 2 ^ 63) with true
    by (symmetry; apply Z.ltb_lt; lia).
  exact Hi.
Qed.
End ArrangeCoins.

(** Away from its section the estimate is right for [n = 0] too. *)
Lemma coins_init_bounds n :
  0 <= n <= INT_MAX ->
  coins_rows n + 1 <= coins_init n <= coins_rows n + 2.
Proof.
  intros Hn. destruct (Z.eq_dec n 0) as [->|Hn0].
  - vm_compute. split; discriminate.
  - apply coins_init_spec. lia.
Qed.

Lemma product_even i : i * (i + 1) = 2 * (i * (i + 1) / 2).
Proof.
  destruct (Z.Even_or_Odd i) as [[j ->]|[j ->]].
  - replace (2 * j * (2 * j + 1)) with (j * (2 * j + 1) * 2) by ring.
    rewrite Z.div_mul by lia. ring.
  - replace ((2 * j + 1) * (2 * j + 1 + 1)) with ((2 * j + 1) * (j + 1) * 2) by ring.
    rewrite Z.div_mul by lia. ring.
Qed.

(** The loop condition is [k < i]: [i*(i+1)] is even and does not wrap. *)
Lemma coins_cond_spec n i :
  0 <= n <= INT_MAX -> 0 <= i <= 2 ^ 17 ->
  coins_cond n i = (coins_rows n <? i).
Proof.
  unfold INT_MAX. intros Hn Hi.
  destruct (coins_rows_spec n) as [Hk0 Hk]; [lia|].
  unfold coins_cond.
  rewrite (to_long_id (i + 1)) by lia.
  rewrite to_long_id by nia.
  rewrite Z.quot_div_nonneg by nia.
  pose proof (product_even i) as He.
  set (q := i * (i + 1) / 2) in *.
  destruct (Z.ltb_spec (coins_rows n) i) as [Hlt|Hge].
  - apply Z.gtb_lt. nia.
  - destruct (Z.gtb_spec q n) as [Hq|Hq]; [|reflexivity]. nia.
Qed.

Lemma coins_loop_spec n fuel : forall i,
  0 <= n <= INT_MAX -> coins_rows n <= i <= coins_rows n + 2 ->
  i - coins_rows n < Z.of_nat fuel ->
  coins_loop fuel n i = Some (coins_rows n).
Proof.
  intros i Hn. unfold INT_MAX in Hn.
  destruct (coins_rows_spec n) as [Hk0 Hk]; [lia|].
  assert (Hk16 : coins_rows n < 2 ^ 16).
  { destruct (Z.lt_ge_cases (coins_rows n) (2 ^ 16)); [assumption|].
    assert (2 ^ 16 * 2 ^ 16 <= coins_rows n * coins_rows n) by nia. lia. }
  revert i. induction fuel as [|fuel IH]; intros i Hi Hfuel; [lia|].
  cbn [coins_loop]. rewrite coins_cond_spec by (unfold INT_MAX; lia).
  destruct (Z.ltb_spec (coins_rows n) i) as [Hlt|Hge].
  - rewrite to_long_id by lia. apply IH; lia.
  - f_equal. lia.
Qed.

Lemma coins_reach_inv n i :
  0 <= n <= INT_MAX -> coins_reach n i ->
  coins_rows n <= i <= coins_rows n + 2.
Proof.
  intros Hn Hreach. induction Hreach as [|i Hreach IH Hc].
  - pose proof (coins_init_bounds n Hn). lia.
  - destruct (coins_rows_spec n) as [Hk0 Hk]; [lia|].
    assert (Hk16 : coins_rows n < 2 ^ 16).
    { unfold INT_MAX in Hn.
      destruct (Z.lt_ge_cases (coins_rows n) (2 ^ 16)); [assumption|].
      assert (2 ^ 16 * 2 ^ 16 <= coins_rows n * coins_rows n) by nia. lia. }
    rewrite coins_cond_spec in Hc by lia. apply Z.ltb_lt in Hc.
    rewrite to_long_id by lia. lia.
Qed.

(** Every value the loop tests, from a start within two of the answer: the
    [j]-th one is [j] below the start and not below the answer. *)
Lemma coins_trace_nth n fuel : forall i j v,
  0 <= n <= INT_MAX -> coins_rows n <= i <= coins_rows n + 2 ->
  nth_error (coins_trace fuel n i) j = Some v ->
  v = i - Z.of_nat j /\ coins_rows n <= v.
Proof.
  induction fuel as [|fuel IH]; intros i j v Hn Hi Hnth.
  - destruct j; discriminate.
  - cbn [coins_trace] in Hnth. destruct j as [|j].
    + injection Hnth as <-. cbn. lia.
    + cbn [nth_error] in Hnth.
      assert (Hk16 : 0 <= coins_rows n < 2 ^ 16).
      { destruct (coins_rows_spec n) as [Hk0 Hk]; [lia|]. split; [lia|].
        unfold INT_MAX in Hn.
        destruct (Z.lt_ge_cases (coins_rows n) (2 ^ 16)); [assumption|].
        assert (2 ^ 16 * 2 ^ 16 <= coins_rows n * coins_rows n) by nia. lia. }
      rewrite coins_cond_spec in Hnth by lia.
      destruct (Z.ltb_spec (coins_rows n) i) as [Hlt|Hge].
      * rewrite to_long_id in Hnth by lia.
        destruct (IH (i - 1) j v Hn ltac:(lia) Hnth) as [Hv Hkv].
        split; [lia|assumption].
      * destruct j; discriminate.
Qed.

(** With enough fuel the last value tested is the answer. *)
Lemma coins_trace_last n fuel : forall i,
  0 <= n <= INT_MAX -> coins_rows n <= i <= coins_rows n + 2 ->
  i - coins_rows n < Z.of_nat fuel ->
  exists l, coins_trace fuel n i = l ++ [coins_rows n] /\
            Z.of_nat (length l) = i - coins_rows n.
Proof.
  induction fuel as [|fuel IH]; intros i Hn Hi Hfuel; [lia|].
  cbn [coins_trace].
  assert (Hk16 : 0 <= coins_rows n < 2 ^ 16).
  { destruct (coins_rows_spec n) as [Hk0 Hk]; [lia|]. split; [lia|].
    unfold INT_MAX in Hn.
    destruct (Z.lt_ge_cases (coins_rows n) (2 ^ 16)); [assumption|].
    assert (2 ^ 16 * 2 ^ 16 <= coins_rows n * coins_rows n) by nia. lia. }
  rewrite coins_cond_spec by lia.
  destruct (Z.ltb_spec (coins_rows n) i) as [Hlt|Hge].
  - rewrite to_long_id by lia.
    destruct (IH (i - 1) Hn ltac:(lia) ltac:(lia)) as (l & -> & Hlen).
    exists (i :: l). split; [reflexivity|]. cbn [length]. lia.
  - exists []. split; [cbn; f_equal; lia|cbn; lia].
Qed.

(** ** More fuel never changes a result *)

Lemma guess_loop_more guess f : forall f' st st',
  (f <= f')%nat -> guess_loop guess f st = Some st' ->
  guess_loop guess f' st = Some st'.
Proof.
  induction f as [|f IH]; intros f' st st' Hle Hrun; [discriminate|].
  destruct f' as [|f']; [lia|]. cbn [guess_loop] in *.
  destruct (g st =? 0); [assumption|]. apply IH; [lia|assumption].
Qed.

Lemma coins_loop_more n f : forall f' i k,
  (f <= f')%nat -> coins_loop f n i = Some k -> coins_loop f' n i = Some k.
Proof.
  induction f as [|f IH]; intros f' i k Hle Hrun; [discriminate|].
  destruct f' as [|f']; [lia|]. cbn [coins_loop] in *.
  destruct (coins_cond n i); [|assumption]. apply IH; [lia|assumption].
Qed.

Lemma sqrt_loop_more x f : forall f' a a',
  (f <= f')%nat -> sqrt_loop f x a = Some a' -> sqrt_loop f' x a = Some a'.
Proof.
  induction f as [|f IH]; intros f' a a' Hle Hrun; [discriminate|].
  destruct f' as [|f']; [lia|]. cbn [sqrt_loop] in *.
  destruct (sqrt_cond x a); [|assumption]. apply IH; [lia|assumption].
Qed.

(** ** guessNumber: the states of a run *)

Lemma guess_reach_inv n s st :
  1 <= n <= INT_MAX -> 1 <= s <= n ->
  guess_reach (oracle s) n st -> guess_inv n s st.
Proof.
  intros Hn Hs Hreach. induction Hreach as [|st Hreach IH Hg].
  - apply guess_init_inv; assumption.
  - apply guess_step_inv; [lia|assumption|assumption].
Qed.

Lemma guess_loop_reach guess n f : forall st st',
  guess_reach guess n st -> guess_loop guess f st = Some st' ->
  guess_reach guess n st'.
Proof.
  induction f as [|f IH]; intros st st' Hreach Hrun; [discriminate|].
  cbn [guess_loop] in Hrun. destruct (Z.eqb_spec (g st) 0) as [Hg|Hg].
  - injection Hrun as <-. assumption.
  - apply (IH (guess_step guess st)); [|assumption].
    apply reach_step; assumption.
Qed.

Lemma guess_run_spec n s fuel :
  1 <= n <= INT_MAX -> 1 <= s <= n -> (guess_fuel n <= fuel)%nat ->
  exists st, guess_run (oracle s) fuel n = Some st /\
    guess_inv n s st /\ c st = s /\
    Z.of_nat (length (calls st)) <= 1 + Z.log2 n.
Proof.
  intros Hn Hs Hfuel.
  pose proof (guess_init_inv n s Hn Hs) as Hinv.
  assert (Hl : left (guess_init (oracle s) n) = 1) by reflexivity.
  assert (Hr : right (guess_init (oracle s) n) = n).
  { cbn. apply to_long_id. unfold INT_MAX in Hn. lia. }
  pose proof (Z.log2_nonneg n) as Hlog.
  destruct (guess_loop_spec n s (guess_fuel n) (guess_init (oracle s) n))
    as (st & Hrun & Hinv' & Hc & Hcalls); [lia|assumption| |].
  { rewrite Hl, Hr. replace (n - 1 + 1) with n by lia.
    unfold guess_fuel. lia. }
  exists st. split; [|split; [assumption|split; [assumption|]]].
  - apply (guess_loop_more _ (guess_fuel n)); assumption.
  - rewrite Hl, Hr in Hcalls. replace (n - 1 + 1) with n in Hcalls by lia.
    change (length (calls (guess_init (oracle s) n))) with 1%nat in Hcalls. lia.
Qed.

(** ** mySqrt for every input *)

(** With 66 units of fuel the loop ends, and on [floor (sqrt x)]. *)
Lemma sqrt_loop_total x :
  0 <= x <= INT_MAX ->
  exists a, sqrt_loop 66 x (sqrt_init x) = Some a /\
    sqrt_cond x a = false /\ double_to_int a = Z.sqrt x.
Proof.
  intros Hx. destruct (Z.eq_dec x 0) as [->|Hx0].
  - eexists. split; [vm_compute; reflexivity|].
    split; vm_compute; reflexivity.
  - assert (Hx1 : 1 <= x <= INT_MAX) by lia.
    destruct (sqrt_init_spec x Hx1) as [Hinv _].
    destruct (sqrt_loop_bounded x Hx1 65 _ Hinv (sqrt_init_excess x Hx1))
      as (a' & Hrun & Ha' & Hc').
    exists a'. split; [assumption|]. split; [assumption|].
    apply sqrt_exit_spec; assumption.
Qed.

Lemma sqrt_divisors_pos x (Hx : 1 <= x <= INT_MAX) fuel : forall a,
  sqrt_inv x a -> Forall (fun d => (0 < SF2R d)%R) (sqrt_divisors fuel x a).
Proof.
  induction fuel as [|fuel IH]; intros a Hinv; [constructor|].
  cbn [sqrt_divisors]. destruct (sqrt_cond x a) eqn:Hc; [|constructor].
  constructor.
  - destruct (sqrt_r_bounds x Hx) as (Hr & _). destruct Hinv as [_ [Hlo _]].
    apply IZR_le in Hr. lra.
  - apply IH. apply sqrt_step_spec; assumption.
Qed.

Lemma SF2R_finite_pos m e : (0 < SF2R (S754_finite false m e))%R.
Proof.
  cbn [SF2R cond_Zopp]. apply Rmult_lt_0_compat; [|apply bpow_pos].
  apply IZR_lt. lia.
Qed.

Lemma sqrt_divisors_zero fuel :
  Forall (fun d => (0 < SF2R d)%R) (sqrt_divisors fuel 0 (sqrt_init 0)).
Proof.
  destruct fuel as [|[|[|fuel]]]; vm_compute sqrt_divisors;
    repeat (constructor; try apply SF2R_finite_pos).
Qed.

Lemma mySqrt_stable x :
  0 <= x <= INT_MAX ->
  exists a,
    (forall fuel, (66 <= fuel)%nat ->
       sqrt_loop fuel x (sqrt_init x) = Some a) /\
    sqrt_cond x a = false /\ double_to_int a = Z.sqrt x.
Proof.
  intros Hx. destruct (sqrt_loop_total x Hx) as (a & Hrun & Hc & Hr).
  exists a. split; [|split; assumption].
  intros fuel Hle. apply (sqrt_loop_more x 66); assumption.
Qed.

Lemma sqrt_init_value x :
  0 <= x <= INT_MAX -> SF2R (sqrt_init x) = IZR (1 + x / 2).
Proof.
  intros Hx. destruct (Z.eq_dec x 0) as [->|Hx0].
  - change (sqrt_init 0) with (of_Z 1). apply one_spec.
  - apply sqrt_init_spec. lia.
Qed.

(** * The claims *)

(** C1: for every [x] with [0 <= x <= 2^31-1], [mySqrt x] returns the
    integer [r] with [r*r <= x < (r+1)*(r+1)], the floor of the square
    root: the iteration starts from [1 + x/2], runs until [a*a > x+0.1]
    fails (66 units of fuel are always enough) and the truncation of the
    last iterate is [r]; in particular [mySqrt 4 = 2], [mySqrt 8 = 2] and
    [mySqrt 0 = 0]. *)
Theorem mySqrt_floor_sqrt x :
  0 <= x <= INT_MAX ->
  SF2R (sqrt_init x) = IZR (1 + x / 2) /\
  (exists a,
     (forall fuel, (66 <= fuel)%nat ->
        sqrt_loop fuel x (sqrt_init x) = Some a) /\
     sqrt_cond x a = false /\ double_to_int a = Z.sqrt x) /\
  (forall fuel, (66 <= fuel)%nat -> mySqrt fuel x = Some (Z.sqrt x)) /\
  Z.sqrt x * Z.sqrt x <= x < (Z.sqrt x + 1) * (Z.sqrt x + 1) /\
  mySqrt 66 4 = Some 2 /\ mySqrt 66 8 = Some 2 /\ mySqrt 66 0 = Some 0.
Proof.
  intros Hx. destruct (mySqrt_stable x Hx) as (a & Hrun & Hc & Hr).
  split; [apply sqrt_init_value; assumption|]. split; [|split; [|split]].
  - exists a. split; [assumption|]. split; assumption.
  - intros fuel Hle. unfold mySqrt. rewrite (Hrun fuel Hle).
    cbn [option_map]. f_equal. exact Hr.
  - assert (H : Z.sqrt x * Z.sqrt x <= x < Z.succ (Z.sqrt x) * Z.succ (Z.sqrt x))
      by (apply Z.sqrt_spec; lia).
    lia.
  - repeat split; vm_compute; reflexivity.
Qed.

Lemma mySqrt_floor_sqrt_witness :
  0 <= 2147395599 <= INT_MAX /\
  forall fuel, (66 <= fuel)%nat ->
    mySqrt fuel 2147395599 = Some (Z.sqrt 2147395599).
Proof.
  assert (H : 0 <= 2147395599 <= INT_MAX) by (unfold INT_MAX; lia).
  split; [exact H|].
  exact (proj1 (proj2 (proj2 (mySqrt_floor_sqrt 2147395599 H)))).
Defined.

(** C2: for every [n] with [0 <= n <= 2^31-1], [arrangeCoins n] returns
    the [k] with [k*(k+1)/2 <= n < (k+1)*(k+2)/2], the largest integer with
    [k*(k+1)/2 <= n]; in particular [arrangeCoins 5 = 2] and
    [arrangeCoins 8 = 3]. *)
Theorem arrangeCoins_complete_rows n :
  0 <= n <= INT_MAX ->
  (forall fuel, (3 <= fuel)%nat -> arrangeCoins fuel n = Some (coins_rows n)) /\
  coins_rows n * (coins_rows n + 1) / 2 <= n
    < (coins_rows n + 1) * (coins_rows n + 2) / 2 /\
  (forall j, j * (j + 1) / 2 <= n -> j <= coins_rows n) /\
  arrangeCoins 3 5 = Some 2 /\ arrangeCoins 3 8 = Some 3.
Proof.
  intros Hn. destruct (coins_rows_spec n) as [Hk0 Hk]; [lia|].
  pose proof (coins_init_bounds n Hn) as Hi.
  assert (Hk16 : coins_rows n < 2 ^ 16).
  { unfold INT_MAX in Hn.
    destruct (Z.lt_ge_cases (coins_rows n) (2 ^ 16)); [assumption|].
    assert (2 ^ 16 * 2 ^ 16 <= coins_rows n * coins_rows n) by nia. lia. }
  split; [|split; [|split]].
  - intros fuel Hfuel. unfold arrangeCoins.
    rewrite (coins_loop_spec n fuel) by lia. cbn [option_map]. f_equal.
    apply to_int_id. unfold INT_MIN, INT_MAX. lia.
  - pose proof (product_even (coins_rows n)) as He.
    pose proof (product_even (coins_rows n + 1)) as He1.
    replace (coins_rows n + 1 + 1) with (coins_rows n + 2) in He1 by lia.
    lia.
  - intros j Hj. destruct (Z.le_gt_cases j (coins_rows n)) as [|Hgt]; [assumption|].
    pose proof (product_even j) as He.
    assert ((coins_rows n + 1) * (coins_rows n + 2) <= j * (j + 1)) by nia.
    lia.
  - split; vm_compute; reflexivity.
Qed.

Lemma arrangeCoins_complete_rows_witness :
  0 <= 2147483647 <= INT_MAX /\
  arrangeCoins 3 2147483647 = Some (coins_rows 2147483647).
Proof.
  assert (H : 0 <= 2147483647 <= INT_MAX) by (unfold INT_MAX; lia).
  split; [exact H|].
  apply (proj1 (arrangeCoins_complete_rows 2147483647 H)). lia.
Defined.

(** C3: for every [n] with [1 <= n <= 2^31-1] and every secret [s] in
    [1..n], [guessNumber n] run against the oracle of [s] returns [s]. *)
Theorem guessNumber_finds_secret n s fuel :
  1 <= n <= INT_MAX -> 1 <= s <= n -> (guess_fuel n <= fuel)%nat ->
  guessNumber (oracle s) fuel n = Some s.
Proof.
  intros Hn Hs Hfuel.
  destruct (guess_run_spec n s fuel Hn Hs Hfuel) as (st & Hrun & _ & Hc & _).
  unfold guessNumber. rewrite Hrun. cbn [option_map]. rewrite Hc. f_equal.
  apply to_int_id. unfold INT_MIN. lia.
Qed.

Lemma guessNumber_finds_secret_witness :
  1 <= 2147483647 <= INT_MAX /\ 1 <= 1 <= 2147483647 /\
  (guess_fuel 2147483647 <= 31)%nat /\
  guessNumber (oracle 1) 31 2147483647 = Some 1.
Proof.
  assert (Hn : 1 <= 2147483647 <= INT_MAX) by (unfold INT_MAX; lia).
  assert (Hs : 1 <= 1 <= 2147483647) by lia.
  assert (Hf : (guess_fuel 2147483647 <= 31)%nat) by (vm_compute; lia).
  split; [exact Hn|]. split; [exact Hs|]. split; [exact Hf|].
  exact (guessNumber_finds_secret 2147483647 1 31 Hn Hs Hf).
Defined.

(** C4: for every [n] with [1 <= n <= 2^31-1] and every secret [s] in
    [1..n], the run of [guessNumber n] against the oracle of [s]
    terminates, and it calls the oracle at most [ceil(log2 n) + 1] times. *)
Theorem guessNumber_oracle_calls n s :
  1 <= n <= INT_MAX -> 1 <= s <= n ->
  exists st,
    (forall fuel, (guess_fuel n <= fuel)%nat ->
       guess_run (oracle s) fuel n = Some st) /\
    Z.of_nat (length (calls st)) <= Z.log2_up n + 1.
Proof.
  intros Hn Hs.
  destruct (guess_run_spec n s (guess_fuel n) Hn Hs (Nat.le_refl _))
    as (st & Hrun & _ & _ & Hcalls).
  exists st. split.
  - intros fuel Hfuel. apply (guess_loop_more _ (guess_fuel n)); assumption.
  - pose proof (Z.le_log2_log2_up n). lia.
Qed.

Lemma guessNumber_oracle_calls_witness :
  1 <= 5 <= INT_MAX /\ 1 <= 4 <= 5 /\
  exists st,
    (forall fuel, (guess_fuel 5 <= fuel)%nat ->
       guess_run (oracle 4) fuel 5 = Some st) /\
    Z.of_nat (length (calls st)) <= Z.log2_up 5 + 1.
Proof.
  assert (Hn : 1 <= 5 <= INT_MAX) by (unfold INT_MAX; lia).
  assert (Hs : 1 <= 4 <= 5) by lia.
  split; [exact Hn|]. split; [exact Hs|].
  exact (guessNumber_oracle_calls 5 4 Hn Hs).
Defined.

(** C5: for every [n] with [0 <= n <= 2^31-1] the initial estimate of
    [arrangeCoins], computed in floating point, is at least the answer [k]
    (the largest [k] with [k*(k+1)/2 <= n]). Each value of [i] on which the
    loop tests its condition is one less than the value before it and is at
    least [k]; with three units of fuel or more the loop returns, the last
    value it tests and the value it leaves with are exactly [k], and
    [arrangeCoins] returns [k]. The loop alone comes down to [k] from every
    start that overshoots [k] by at most two, so an estimate one above the
    exact [k + 1] is corrected too. *)
Theorem arrangeCoins_estimate_overshoots n :
  0 <= n <= INT_MAX ->
  coins_rows n <= coins_init n <= coins_rows n + 2 /\
  (forall fuel j i,
     nth_error (coins_trace fuel n (coins_init n)) j = Some i ->
     i = coins_init n - Z.of_nat j /\ coins_rows n <= i) /\
  (forall fuel, (3 <= fuel)%nat ->
     coins_loop fuel n (coins_init n) = Some (coins_rows n) /\
     arrangeCoins fuel n = Some (coins_rows n) /\
     exists l, coins_trace fuel n (coins_init n) = l ++ [coins_rows n] /\
               Z.of_nat (length l) = coins_init n - coins_rows n) /\
  (forall i fuel,
     coins_rows n <= i <= coins_rows n + 2 -> (3 <= fuel)%nat ->
     coins_loop fuel n i = Some (coins_rows n) /\
     exists l, coins_trace fuel n i = l ++ [coins_rows n] /\
               Z.of_nat (length l) = i - coins_rows n).
Proof.
  intros Hn. destruct (coins_rows_spec n) as [Hk0 Hk]; [lia|].
  pose proof (coins_init_bounds n Hn) as Hi0.
  assert (Hk16 : coins_rows n < 2 ^ 16).
  { unfold INT_MAX in Hn.
    destruct (Z.lt_ge_cases (coins_rows n) (2 ^ 16)); [assumption|].
    assert (2 ^ 16 * 2 ^ 16 <= coins_rows n * coins_rows n) by nia. lia. }
  split; [lia|]. split; [|split].
  - intros fuel j i Hnth.
    apply (coins_trace_nth n fuel (coins_init n) j i Hn); [lia|assumption].
  - intros fuel Hfuel.
    assert (Hloop : coins_loop fuel n (coins_init n) = Some (coins_rows n))
      by (apply coins_loop_spec; lia).
    split; [exact Hloop|]. split.
    + unfold arrangeCoins. rewrite Hloop. cbn [option_map]. f_equal.
      apply to_int_id. unfold INT_MIN, INT_MAX. lia.
    + apply coins_trace_last; lia.
  - intros i fuel Hi Hfuel. split.
    + apply coins_loop_spec; lia.
    + apply coins_trace_last; lia.
Qed.

Lemma arrangeCoins_estimate_overshoots_witness :
  0 <= 8 <= INT_MAX /\
  coins_rows 8 <= coins_init 8 <= coins_rows 8 + 2 /\
  coins_loop 3 8 (coins_init 8) = Some (coins_rows 8).
Proof.
  assert (H : 0 <= 8 <= INT_MAX) by (unfold INT_MAX; lia).
  pose proof (arrangeCoins_estimate_overshoots 8 H) as (Hi & _ & Hrun & _).
  split; [exact H|]. split; [exact Hi|].
  exact (proj1 (Hrun 3%nat (le_n 3))).
Defined.

(** C6: for every [x] with [0 <= x <= 2^31-1], each time [mySqrt] evaluates
    [x/a] the divisor [a] is strictly positive; for [x = 1] the loop body
    never runs, and for [x = 0] the divisors are [1] and [0.5]. *)
Theorem mySqrt_divisors_positive x fuel :
  0 <= x <= INT_MAX ->
  Forall (fun d => (0 < SF2R d)%R) (sqrt_divisors fuel x (sqrt_init x)) /\
  sqrt_divisors fuel 1 (sqrt_init 1) = [] /\
  sqrt_divisors 8 0 (sqrt_init 0) =
    [S754_finite false 4503599627370496 (-52);
     S754_finite false 4503599627370496 (-53)].
Proof.
  intros Hx. split; [|split].
  - destruct (Z.eq_dec x 0) as [->|Hx0]; [apply sqrt_divisors_zero|].
    assert (Hx1 : 1 <= x <= INT_MAX) by lia.
    apply (sqrt_divisors_pos x Hx1). apply sqrt_init_spec. assumption.
  - destruct fuel; [reflexivity|]. vm_compute. reflexivity.
  - vm_compute. reflexivity.
Qed.

Lemma mySqrt_divisors_positive_witness :
  0 <= 2147483647 <= INT_MAX /\
  Forall (fun d => (0 < SF2R d)%R)
    (sqrt_divisors 32 2147483647 (sqrt_init 2147483647)).
Proof.
  assert (H : 0 <= 2147483647 <= INT_MAX) by (unfold INT_MAX; lia).
  split; [exact H|].
  exact (proj1 (mySqrt_divisors_positive 2147483647 32 H)).
Defined.

(** C7: on the stated domains the intermediate integer computations are
    done on 64 bits and agree with exact arithmetic: the midpoint sum
    [left+right+1] of [guessNumber] at every state of a run, and [8*n+1] of
    [arrangeCoins], which its conversion to [double] keeps as well; so do
    the updates [c+1], [c-1] and the product [i*(i+1)]. *)
Theorem intermediates_exact n s st m i :
  1 <= n <= INT_MAX -> 1 <= s <= n -> guess_reach (oracle s) n st ->
  0 <= m <= INT_MAX -> coins_reach m i ->
  64 <= long_bits /\
  mid_sum (left st) (right st) = left st + right st + 1 /\
  c st = (left st + right st + 1) / 2 /\
  to_long (c st + 1) = c st + 1 /\ to_long (c st - 1) = c st - 1 /\
  coins_radicand m = 8 * m + 1 /\
  SF2R (of_Z (coins_radicand m)) = IZR (8 * m + 1) /\
  to_long (i * to_long (i + 1)) = i * (i + 1).
Proof.
  unfold INT_MAX. intros Hn Hs Hreach Hm Hi.
  pose proof (guess_reach_inv n s st Hn Hs Hreach)
    as (Hl & Hsr & Hr & Hc & _ & _).
  assert (Hc2 : left st <= c st <= right st) by (rewrite Hc; lia_div).
  destruct (midpoint_exact (left st) (right st)) as [Hsum _]; try lia.
  assert (Hrad : coins_radicand m = 8 * m + 1).
  { unfold coins_radicand. rewrite (to_long_id (8 * m)) by lia.
    apply to_long_id. lia. }
  split; [unfold long_bits; lia|]. split; [exact Hsum|]. split; [exact Hc|].
  split; [apply to_long_id; lia|]. split; [apply to_long_id; lia|].
  split; [exact Hrad|]. split; [rewrite Hrad; apply of_Z_spec; lia|].
  pose proof (coins_reach_inv m i Hm Hi) as Hik.
  destruct (coins_rows_spec m) as [Hk0 Hk]; [lia|].
  assert (Hk16 : coins_rows m < 2 ^ 16).
  { destruct (Z.lt_ge_cases (coins_rows m) (2 ^ 16)); [assumption|].
    assert (2 ^ 16 * 2 ^ 16 <= coins_rows m * coins_rows m) by nia. lia. }
  rewrite (to_long_id (i + 1)) by lia. apply to_long_id. nia.
Qed.

Lemma intermediates_exact_witness :
  1 <= 2147483647 <= INT_MAX /\ 1 <= 7 <= 2147483647 /\
  guess_reach (oracle 7) 2147483647 (guess_init (oracle 7) 2147483647) /\
  0 <= 2147483647 <= INT_MAX /\
  coins_reach 2147483647 (coins_init 2147483647) /\
  mid_sum 1 2147483647 = 2147483649 /\
  coins_radicand 2147483647 = 17179869177.
Proof.
  assert (Hn : 1 <= 2147483647 <= INT_MAX) by (unfold INT_MAX; lia).
  assert (Hs : 1 <= 7 <= 2147483647) by lia.
  assert (Hm : 0 <= 2147483647 <= INT_MAX) by (unfold INT_MAX; lia).
  pose proof (reach_init (oracle 7) 2147483647) as Hreach.
  pose proof (coins_reach_init 2147483647) as Hi.
  split; [exact Hn|]. split; [exact Hs|]. split; [exact Hreach|].
  split; [exact Hm|]. split; [exact Hi|].
  pose proof (intermediates_exact 2147483647 7 _ 2147483647 _ Hn Hs Hreach Hm Hi)
    as (_ & Hsum & _ & _ & _ & Hrad & _).
  split; [exact Hsum|exact Hrad].
Defined.

(** C8: for every [x] with [0 <= x <= 2^31-1] the Newton loop of [mySqrt],
    started from [1 + x/2], stops after finitely many iterations: at most
    65 of them. *)
Theorem mySqrt_terminates x :
  0 <= x <= INT_MAX ->
  exists a,
    (forall fuel, (66 <= fuel)%nat ->
       sqrt_loop fuel x (sqrt_init x) = Some a) /\
    sqrt_cond x a = false /\
    (length (sqrt_divisors 66 x (sqrt_init x)) <= 65)%nat.
Proof.
  intros Hx. destruct (sqrt_loop_total x Hx) as (a & Hrun & Hc & _).
  exists a. split; [|split; [assumption|]].
  - intros fuel Hle. apply (sqrt_loop_more x 66); assumption.
  - enough (H : forall fuel a0 a1, sqrt_loop fuel x a0 = Some a1 ->
                  (length (sqrt_divisors fuel x a0) < fuel)%nat).
    { specialize (H _ _ _ Hrun). lia. }
    clear. induction fuel as [|fuel IH]; intros a0 a1 Hrun; [discriminate|].
    cbn [sqrt_loop sqrt_divisors] in *.
    destruct (sqrt_cond x a0); cbn [length]; [|lia].
    specialize (IH _ _ Hrun). lia.
Qed.

Lemma mySqrt_terminates_witness :
  0 <= 2147483647 <= INT_MAX /\
  exists a,
    (forall fuel, (66 <= fuel)%nat ->
       sqrt_loop fuel 2147483647 (sqrt_init 2147483647) = Some a) /\
    sqrt_cond 2147483647 a = false /\
    (length (sqrt_divisors 66 2147483647 (sqrt_init 2147483647)) <= 65)%nat.
Proof.
  assert (H : 0 <= 2147483647 <= INT_MAX) by (unfold INT_MAX; lia).
  split; [exact H|]. exact (mySqrt_terminates 2147483647 H).
Defined.

(** C10: for every [n] with [1 <= n <= 2^31-1] and every secret [s] in
    [1..n], [guessNumber n] never calls the oracle outside [1..n]: at every
    call [1 <= left <= c <= right <= n] and [s] lies in [left..right]. *)
Theorem guessNumber_calls_in_range n s st :
  1 <= n <= INT_MAX -> 1 <= s <= n -> guess_reach (oracle s) n st ->
  1 <= left st /\ left st <= c st /\ c st <= right st /\ right st <= n /\
  left st <= s <= right st /\
  Forall (fun a => 1 <= a <= n) (calls st) /\
  (forall fuel st', guess_loop (oracle s) fuel st = Some st' ->
     Forall (fun a => 1 <= a <= n) (calls st')).
Proof.
  intros Hn Hs Hreach.
  pose proof (guess_reach_inv n s st Hn Hs Hreach)
    as (Hl & Hsr & Hr & Hc & _ & Hcalls).
  assert (Hc2 : left st <= c st <= right st) by (rewrite Hc; lia_div).
  repeat (split; [lia || assumption|]).
  intros fuel st' Hrun.
  apply (guess_reach_inv n s st' Hn Hs).
  apply (guess_loop_reach _ _ fuel st); assumption.
Qed.

Lemma guessNumber_calls_in_range_witness :
  1 <= 10 <= INT_MAX /\ 1 <= 10 <= 10 /\
  guess_reach (oracle 10) 10 (guess_step (oracle 10) (guess_init (oracle 10) 10)) /\
  Forall (fun a => 1 <= a <= 10)
    (calls (guess_step (oracle 10) (guess_init (oracle 10) 10))).
Proof.
  assert (Hn : 1 <= 10 <= INT_MAX) by (unfold INT_MAX; lia).
  assert (Hs : 1 <= 10 <= 10) by lia.
  assert (Hreach : guess_reach (oracle 10) 10
                     (guess_step (oracle 10) (guess_init (oracle 10) 10))).
  { apply reach_step; [apply reach_init|]. vm_compute. discriminate. }
  split; [exact Hn|]. split; [exact Hs|]. split; [exact Hreach|].
  pose proof (guessNumber_calls_in_range 10 10 _ Hn Hs Hreach)
    as (_ & _ & _ & _ & _ & Hcalls & _).
  exact Hcalls.
Defined.

(** * Further lemmas *)

(** ** guessNumber under any oracle *)

Lemma guess_reach_answer guess n st :
  guess_reach guess n st -> g st = guess (to_int (c st)).
Proof.
  intros Hreach. destruct Hreach as [|st Hreach Hg]; [reflexivity|].
  unfold guess_step.
  destruct (g st =? 1); [reflexivity|]. destruct (g st =? -1); reflexivity.
Qed.

Lemma guess_init_inv_any guess n :
  1 <= n < INT_MAX -> guess_inv_any n (guess_init guess n).
Proof.
  unfold INT_MAX. intros Hn.
  assert (Hr : to_long n = n) by (apply to_long_id; lia).
  destruct (midpoint_exact 1 n) as [_ Hm]; try lia.
  assert (Hc : 1 <= (1 + n + 1) / 2 <= n) by lia_div.
  unfold guess_inv_any, guess_init; cbn. rewrite Hr, Hm.
  rewrite to_int_id by (unfold INT_MIN, INT_MAX; lia).
  repeat split; try lia. constructor; [lia|constructor].
Qed.

Lemma guess_step_inv_any guess n st :
  1 <= n < INT_MAX -> guess_inv_any n st ->
  guess_inv_any n (guess_step guess st).
Proof.
  unfold INT_MAX. intros Hn (Hl & Hr & Hlr & Hc & Hcalls).
  assert (Hc1 : left st - 1 <= c st <= right st + 1) by lia_div.
  assert (Hc0 : 1 <= c st) by lia_div.
  assert (Hin : forall l r, 1 <= l <= n + 2 -> 0 <= r <= n -> l <= r + 2 ->
            1 <= (l + r + 1) / 2 <= n + 1) by (intros; lia_div).
  unfold guess_step.
  destruct (g st =? 1); [|destruct (g st =? -1)].
  - rewrite (to_long_id (c st + 1)) by lia.
    destruct (midpoint_exact (c st + 1) (right st)) as [_ Hm]; try lia.
    rewrite Hm, to_int_id by (unfold INT_MIN, INT_MAX; specialize (Hin (c st + 1) (right st)); lia).
    unfold guess_inv_any; cbn. repeat split; try lia.
    apply Forall_app; split; [assumption|].
    constructor; [apply Hin; lia|constructor].
  - rewrite (to_long_id (c st - 1)) by lia.
    destruct (midpoint_exact (left st) (c st - 1)) as [_ Hm]; try lia.
    rewrite Hm, to_int_id by (unfold INT_MIN, INT_MAX; specialize (Hin (left st) (c st - 1)); lia).
    unfold guess_inv_any; cbn. repeat split; try lia.
    apply Forall_app; split; [assumption|].
    constructor; [apply Hin; lia|constructor].
  - rewrite to_int_id by (unfold INT_MIN, INT_MAX; lia).
    unfold guess_inv_any; cbn. repeat split; try lia.
    apply Forall_app; split; [assumption|]. constructor; [lia|constructor].
Qed.

(** A returned candidate is one the oracle answered [0] on. *)
Lemma guess_run_answer guess fuel n r :
  guessNumber guess fuel n = Some r -> guess r = 0.
Proof.
  unfold guessNumber, guess_run. intros Hrun.
  destruct (guess_loop guess fuel (guess_init guess n)) as [st|] eqn:Hloop;
    [|discriminate].
  injection Hrun as <-.
  assert (Hreach : guess_reach guess n st).
  { apply (guess_loop_reach guess n fuel (guess_init guess n));
      [apply reach_init|assumption]. }
  rewrite <- (guess_reach_answer guess n st Hreach).
  clear Hreach. revert Hloop. generalize (guess_init guess n).
  induction fuel as [|fuel IH]; intros st0 Hloop; [discriminate|].
  cbn [guess_loop] in Hloop. destruct (Z.eqb_spec (g st0) 0) as [Hg|Hg].
  - injection Hloop as <-. assumption.
  - apply (IH _ Hloop).
Qed.

(** ** guessNumber: no candidate is asked twice *)

Lemma guess_fresh_reach n s st :
  1 <= n <= INT_MAX -> 1 <= s <= n -> guess_reach (oracle s) n st ->
  NoDup (calls st) /\
  Forall (fun a => a = c st \/ a < left st \/ right st < a) (calls st).
Proof.
  intros Hn Hs Hreach. induction Hreach as [|st Hreach IH Hg].
  - cbn. split.
    + constructor; [intros []|constructor].
    + constructor; [|constructor]. left.
      pose proof (guess_init_inv n s Hn Hs) as (_ & _ & _ & Hc & _).
      cbn in Hc. unfold INT_MAX in Hn.
      assert (to_long n = n) by (apply to_long_id; lia).
      destruct (midpoint_exact 1 n) as [_ Hm]; try lia.
      rewrite H, Hm. apply to_int_id. unfold INT_MIN, INT_MAX. lia_div.
  - destruct IH as [Hnd Hout].
    pose proof (guess_reach_inv n s st Hn Hs Hreach) as Hinv.
    destruct (guess_step_inv n s st (proj2 Hn) Hinv Hg) as (Hinv' & _ & _).
    destruct Hinv as (Hl & Hsr & Hr & Hc & Hgo & _).
    destruct Hinv' as (Hl' & Hsr' & Hr' & Hc' & _ & _).
    assert (Hc2 : left st <= c st <= right st) by (rewrite Hc; lia_div).
    set (st1 := guess_step (oracle s) st) in *.
    assert (Hc2' : left st1 <= c st1 <= right st1) by (rewrite Hc'; lia_div).
    (* how the step moved the interval *)
    assert (Hmove : calls st1 = calls st ++ [c st1] /\
              left st <= left st1 /\ right st1 <= right st /\
              (c st < left st1 \/ right st1 < c st)).
    { unfold INT_MAX in Hn. subst st1. unfold guess_step in *.
      destruct (oracle_cases s (c st)) as [[Hlt Ho]|[[Hlt Ho]|[Hlt Ho]]];
        rewrite Hgo, Ho in *; cbn [Z.eqb Pos.eqb] in *; [| |congruence].
      - cbn in *. rewrite (to_long_id (c st + 1)) in * by lia.
        rewrite to_int_id by (unfold INT_MIN, INT_MAX; lia).
        repeat split; try lia.
      - cbn in *. rewrite (to_long_id (c st - 1)) in * by lia.
        rewrite to_int_id by (unfold INT_MIN, INT_MAX; lia).
        repeat split; try lia. }
    destruct Hmove as (Hcalls & Hll & Hrr & Hcout).
    rewrite Hcalls. split.
    + apply NoDup_app; [assumption|constructor; [intros []|constructor]|].
      intros a Ha [<-|[]].
      rewrite Forall_forall in Hout. specialize (Hout _ Ha). lia.
    + apply Forall_app; split.
      * apply (Forall_impl _ (P := fun a => a = c st \/ a < left st \/ right st < a));
          [|assumption]. intros a Ha. lia.
      * constructor; [left; reflexivity|constructor].
Qed.

(** ** guessNumber: the worst case *)

Lemma guess_loop_first n s fuel : forall st,
  n <= INT_MAX -> guess_inv n s st -> s = left st ->
  Z.log2 (right st - left st + 1) < Z.of_nat fuel ->
  exists st', guess_loop (oracle s) fuel st = Some st' /\
    Z.of_nat (length (calls st'))
      = Z.of_nat (length (calls st)) + Z.log2 (right st - left st + 1).
Proof.
  induction fuel as [|k IH]; intros st Hn Hinv Hs Hfuel.
  - pose proof (Z.log2_nonneg (right st - left st + 1)). lia.
  - cbn [guess_loop]. destruct (Z.eqb_spec (g st) 0) as [Hg|Hg].
    + exists st. split; [reflexivity|].
      pose proof (guess_inv_exit n s st Hinv Hg) as Hcs.
      destruct Hinv as (_ & Hsr & _ & Hc & _).
      assert (Hw : right st - left st + 1 = 1) by (rewrite Hc in Hcs; lia_div).
      rewrite Hw. cbn. lia.
    + destruct (guess_step_inv n s st Hn Hinv Hg) as (Hinv' & _ & Hlen).
      destruct Hinv as (Hl & Hsr & Hr & Hc & Hgo & _).
      assert (Hlt : s < c st).
      { destruct (oracle_cases s (c st)) as [[? Ho]|[[? Ho]|[? Ho]]];
          [|assumption|congruence].
        assert (left st <= c st) by (rewrite Hc; lia_div). lia. }
      assert (Hstep : left (guess_step (oracle s) st) = left st /\
                right (guess_step (oracle s) st) = c st - 1).
      { unfold guess_step.
        destruct (oracle_cases s (c st)) as [[? Ho]|[[? Ho]|[? Ho]]]; try lia.
        rewrite Hgo, Ho. cbn. split; [reflexivity|].
        apply to_long_id. unfold INT_MAX in Hn.
        assert (left st <= c st <= right st) by (rewrite Hc; lia_div). lia. }
      destruct Hstep as [Hl' Hr'].
      set (st1 := guess_step (oracle s) st) in *.
      assert (Hw : right st1 - left st1 + 1 = (right st - left st + 1) / 2).
      { rewrite Hl', Hr', Hc. lia_div. }
      assert (H2 : 2 <= right st - left st + 1) by (rewrite Hc in Hlt; lia_div).
      assert (Hlog : Z.log2 (right st1 - left st1 + 1)
                     = Z.log2 (right st - left st + 1) - 1).
      { rewrite Hw, <- Z.div2_div, Z.div2_spec, Z.log2_shiftr by lia.
        pose proof (Z.log2_le_mono 2 (right st - left st + 1)).
        change (Z.log2 2) with 1 in *. lia. }
      destruct (IH st1 Hn Hinv') as (st' & Hrun & Hcalls); [lia|lia|].
      exists st'. split; [assumption|]. lia.
Qed.

(** ** guessNumber: a secret outside [1..n] *)

Lemma guess_loop_above n s fuel : forall st,
  1 <= n -> n + 1 < s <= INT_MAX ->
  right st = n -> 1 <= left st <= n + 2 ->
  c st = (left st + n + 1) / 2 -> g st = 1 ->
  guess_loop (oracle s) fuel st = None.
Proof.
  unfold INT_MAX.
  induction fuel as [|k IH]; intros st Hn Hs Hr Hl Hc Hg; [reflexivity|].
  cbn [guess_loop]. rewrite Hg. cbn [Z.eqb].
  assert (Hc1 : left st - 1 <= c st <= n + 1) by (rewrite Hc; lia_div).
  assert (Hc0 : 1 <= c st) by (rewrite Hc; lia_div).
  assert (Hc' : 1 <= (c st + 1 + n + 1) / 2 <= n + 1) by lia_div.
  assert (Hstep : guess_step (oracle s) st =
            mk_gstate (c st + 1) n ((c st + 1 + n + 1) / 2) 1
              (calls st ++ [(c st + 1 + n + 1) / 2])).
  { unfold guess_step. rewrite Hg. cbn [Z.eqb Pos.eqb].
    rewrite Hr, (to_long_id (c st + 1)) by lia.
    destruct (midpoint_exact (c st + 1) n) as [_ Hm]; try lia. rewrite Hm.
    rewrite to_int_id by (unfold INT_MIN, INT_MAX; lia).
    f_equal. unfold oracle.
    destruct (Z.gtb_spec s ((c st + 1 + n + 1) / 2)); [reflexivity|lia]. }
  rewrite Hstep. apply IH; cbn; try assumption; try reflexivity; lia.
Qed.

Lemma guess_loop_below n s fuel : forall st,
  1 <= n <= INT_MAX -> s < 1 ->
  left st = 1 -> 0 <= right st <= n ->
  c st = (1 + right st + 1) / 2 -> g st = -1 ->
  guess_loop (oracle s) fuel st = None.
Proof.
  unfold INT_MAX.
  induction fuel as [|k IH]; intros st Hn Hs Hl Hr Hc Hg; [reflexivity|].
  cbn [guess_loop]. rewrite Hg. cbn [Z.eqb].
  assert (Hc1 : 1 <= c st <= right st + 1) by (rewrite Hc; lia_div).
  assert (Hc' : 1 <= (1 + (c st - 1) + 1) / 2 <= n) by lia_div.
  assert (Hstep : guess_step (oracle s) st =
            mk_gstate 1 (c st - 1) ((1 + (c st - 1) + 1) / 2) (-1)
              (calls st ++ [(1 + (c st - 1) + 1) / 2])).
  { unfold guess_step. rewrite Hg. cbn [Z.eqb Pos.eqb].
    rewrite Hl, (to_long_id (c st - 1)) by lia.
    destruct (midpoint_exact 1 (c st - 1)) as [_ Hm]; try lia. rewrite Hm.
    rewrite to_int_id by (unfold INT_MIN, INT_MAX; lia).
    f_equal. unfold oracle.
    destruct (Z.gtb_spec s ((1 + (c st - 1) + 1) / 2)); [lia|].
    destruct (Z.ltb_spec s ((1 + (c st - 1) + 1) / 2)); [reflexivity|lia]. }
  rewrite Hstep. apply IH; cbn; try assumption; try reflexivity; lia.
Qed.

Lemma guess_loop_past n fuel : forall st,
  1 <= n < INT_MAX ->
  right st = n -> 1 <= left st <= n + 1 ->
  c st = (left st + n + 1) / 2 -> g st = oracle (n + 1) (c st) ->
  Z.log2 (n + 2 - left st) < Z.of_nat fuel ->
  exists st', guess_loop (oracle (n + 1)) fuel st = Some st' /\ c st' = n + 1.
Proof.
  unfold INT_MAX.
  induction fuel as [|k IH]; intros st Hn Hr Hl Hc Hg Hfuel.
  - pose proof (Z.log2_nonneg (n + 2 - left st)). lia.
  - cbn [guess_loop]. destruct (Z.eqb_spec (g st) 0) as [Hg0|Hg0].
    + exists st. split; [reflexivity|]. rewrite Hg0 in Hg.
      destruct (oracle_cases (n + 1) (c st)) as [[? Ho]|[[? Ho]|[? Ho]]]; lia.
    + assert (Hc1 : left st <= c st <= n + 1) by (rewrite Hc; lia_div).
      assert (Hlt : c st < n + 1 /\ g st = 1).
      { destruct (oracle_cases (n + 1) (c st)) as [[? Ho]|[[? Ho]|[? Ho]]];
          [split; lia|lia|congruence]. }
      destruct Hlt as [Hlt Hg1].
      assert (Hc' : c st + 1 <= (c st + 1 + n + 1) / 2 <= n + 1) by lia_div.
      assert (Hstep : guess_step (oracle (n + 1)) st =
                mk_gstate (c st + 1) n ((c st + 1 + n + 1) / 2)
                  (oracle (n + 1) ((c st + 1 + n + 1) / 2))
                  (calls st ++ [(c st + 1 + n + 1) / 2])).
      { unfold guess_step. rewrite Hg1. cbn [Z.eqb Pos.eqb].
        rewrite Hr, (to_long_id (c st + 1)) by lia.
        destruct (midpoint_exact (c st + 1) n) as [_ Hm]; try lia. rewrite Hm.
        rewrite to_int_id by (unfold INT_MIN, INT_MAX; lia). reflexivity. }
      rewrite Hstep. apply IH; cbn [left right c g]; try reflexivity; try lia.
      assert (H2 : 2 <= n + 2 - left st) by lia.
      assert (Hw : n + 2 - (c st + 1) <= (n + 2 - left st) / 2)
        by (rewrite Hc; lia_div).
      assert (Hlog : Z.log2 (n + 2 - (c st + 1)) <= Z.log2 (n + 2 - left st) - 1).
      { transitivity (Z.log2 ((n + 2 - left st) / 2)).
        - apply Z.log2_le_mono. exact Hw.
        - rewrite <- Z.div2_div, Z.div2_spec, Z.log2_shiftr by lia.
          pose proof (Z.log2_le_mono 2 (n + 2 - left st)).
          change (Z.log2 2) with 1 in *. lia. }
      lia.
Qed.

(** ** arrangeCoins: the estimate is exactly one too large *)

Section CoinsEstimate.
Variable n : Z.
Hypothesis Hn : 1 <= n <= INT_MAX.

Local Abbreviation k := (coins_rows n).

(** [sqrt (8n+1)] is below [2k+3] by at least [2^-35]: the distance of the
    radicand to the next odd square is at least 1. *)
Lemma coins_sqrt_below :
  (sqrt (IZR (8 * n + 1)) <= IZR ((2 * k + 3) * 2 ^ 35 - 1) / IZR (2 ^ 35))%R.
Proof.
  destruct (coins_k_bounds n Hn) as [Hk Hkn].
  set (t := (IZR ((2 * k + 3) * 2 ^ 35 - 1) / IZR (2 ^ 35))%R).
  assert (Ht : (t = IZR (2 * k + 3) - / 34359738368)%R).
  { unfold t. rewrite minus_IZR, mult_IZR. change (2 ^ 35) with 34359738368.
    field. }
  assert (HK : (3 <= IZR (2 * k + 3) <= 131073)%R) by (split; apply IZR_le; lia).
  assert (Ht0 : (0 <= t)%R) by lra.
  rewrite <- (sqrt_square t Ht0). apply sqrt_le_1_alt.
  assert (HN : (IZR (8 * n + 1) <= IZR ((2 * k + 3) * (2 * k + 3)) - 1)%R).
  { rewrite <- minus_IZR. apply IZR_le. nia. }
  rewrite mult_IZR in HN. rewrite Ht. nra.
Qed.

Lemma coins_init_exact : coins_init n = k + 1.
Proof.
  unfold INT_MAX in Hn.
  destruct (coins_k_bounds n Hn) as [Hk Hkn].
  unfold coins_init, coins_radicand.
  rewrite (to_long_id (8 * n)) by lia. rewrite to_long_id by lia.
  destruct (of_Z_spec (8 * n + 1)) as [HnN HvN]; [lia|].
  fold (of_Z (8 * n + 1)) in HnN, HvN.
  destruct (dsqrt_spec _ HnN) as [Hns Hfs]. rewrite HvN in Hfs.
  fold (dsqrt (of_Z (8 * n + 1))) in Hns, Hfs.
  set (s := dsqrt (of_Z (8 * n + 1))) in *.
  assert (HRk : (1 <= IZR k <= 65535)%R) by (split; apply IZR_le; lia).
  assert (Hslo : (IZR (2 * k + 1) <= SF2R s)%R).
  { apply (faithful_ge _ _ _ Hfs); [apply F53_IZR; lia|].
    rewrite <- (sqrt_square (IZR (2 * k + 1))) by (apply IZR_le; lia).
    apply sqrt_le_1_alt. rewrite <- mult_IZR. apply IZR_le. nia. }
  assert (Hshi : (SF2R s <= IZR ((2 * k + 3) * 2 ^ 35 - 1) / IZR (2 ^ 35))%R).
  { apply (faithful_le _ _ _ Hfs); [apply F53_scaled; lia|].
    apply coins_sqrt_below. }
  rewrite minus_IZR, mult_IZR in Hshi. change (2 ^ 35) with 34359738368 in Hshi.
  rewrite plus_IZR, mult_IZR in Hslo, Hshi.
  (* t = s - 1 *)
  destruct one_spec as (Hn1 & Hv1 & He1).
  destruct (dsub_spec s (of_Z 1) Hns Hn1) as [Hnt Hft].
  { rewrite Hv1. lra. }
  { split.
    - assert (0 - 52 <= expo s); [|lia].
      apply normal_pos_expo_ge; [assumption|]. change (bpow 0) with 1%R. lra.
    - assert (expo s <= 18 - 52); [|lia].
      apply normal_pos_expo_le; [assumption|]. rewrite bpow_IZR by lia.
      change (2 ^ 18) with 262144. lra. }
  { rewrite He1. lia. }
  rewrite Hv1 in Hft. fold (dsub s (of_Z 1)) in Hnt, Hft.
  set (t := dsub s (of_Z 1)) in *.
  assert (Htlo : (IZR (2 * k) <= SF2R t)%R).
  { apply (faithful_ge _ _ _ Hft); [apply F53_IZR; lia|]. rewrite mult_IZR. lra. }
  assert (Hthi : (SF2R t <= IZR ((2 * k + 2) * 2 ^ 35 - 1) / IZR (2 ^ 35))%R).
  { apply (faithful_le _ _ _ Hft); [apply F53_scaled; lia|].
    rewrite minus_IZR, mult_IZR, plus_IZR, mult_IZR.
    change (2 ^ 35) with 34359738368. lra. }
  rewrite mult_IZR in Htlo.
  rewrite minus_IZR, mult_IZR, plus_IZR, mult_IZR in Hthi.
  change (2 ^ 35) with 34359738368 in Hthi.
  (* h = t / 2, exactly *)
  destruct two_spec as (Hn2 & Hv2 & He2).
  destruct (ddiv_spec t (of_Z 2) Hnt Hn2) as [Hnh Hfh].
  { rewrite He2.
    assert (0 - 52 <= expo t)
      by (apply normal_pos_expo_ge; [assumption|]; change (bpow 0) with 1%R; lra).
    assert (expo t <= 18 - 52).
    { apply normal_pos_expo_le; [assumption|]. rewrite bpow_IZR by lia.
      change (2 ^ 18) with 262144. lra. }
    lia. }
  rewrite Hv2 in Hfh. apply faithful_exact in Hfh; [|apply normal_pos_half; assumption].
  fold (ddiv t (of_Z 2)) in Hnh, Hfh. set (h := ddiv t (of_Z 2)) in *.
  (* w = h + 1 *)
  destruct (dadd_spec h (of_Z 1) Hnh Hn1) as [Hnw Hfw].
  { assert (expo h <= 17 - 52); [|lia].
    apply normal_pos_expo_le; [assumption|]. rewrite bpow_IZR by lia.
    change (2 ^ 17) with 131072. lra. }
  { rewrite He1. lia. }
  rewrite Hv1, Hfh in Hfw. fold (dadd h (of_Z 1)) in Hnw, Hfw.
  set (w := dadd h (of_Z 1)) in *.
  assert (Hwlo : (IZR (k + 1) <= SF2R w)%R).
  { apply (faithful_ge _ _ _ Hfw); [apply F53_IZR; lia|]. rewrite plus_IZR. lra. }
  assert (Hwhi : (SF2R w <= IZR ((k + 2) * 2 ^ 36 - 1) / IZR (2 ^ 36))%R).
  { apply (faithful_le _ _ _ Hfw); [apply F53_scaled; lia|].
    rewrite minus_IZR, mult_IZR, plus_IZR.
    change (2 ^ 36) with 68719476736. lra. }
  rewrite minus_IZR, mult_IZR, plus_IZR in Hwhi.
  change (2 ^ 36) with 68719476736 in Hwhi.
  (* truncation *)
  destruct (normal_pos_inv w Hnw) as (mw & ew & Hw & _ & _).
  rewrite Hw in *. cbn [SF2R cond_Zopp] in Hwlo, Hwhi.
  unfold double_to_long. cbn [trunc cond_Zopp].
  rewrite (shiftl_floor mw ew (k + 1)).
  - replace (LONG_MIN <=? k + 1) with true
      by (symmetry; apply Z.leb_le; unfold LONG_MIN; lia).
    replace (k + 1 <? 2 ^ 63) with true by (symmetry; apply Z.ltb_lt; lia).
    reflexivity.
  - split; [assumption|]. rewrite !plus_IZR. lra.
Qed.
End CoinsEstimate.

Lemma coins_rows_range n : 0 <= n <= INT_MAX -> 0 <= coins_rows n <= 65535.
Proof.
  unfold INT_MAX. intros Hn.
  destruct (coins_rows_spec n) as [Hk0 Hk]; [lia|]. split; [assumption|].
  destruct (Z.le_gt_cases (coins_rows n) 65535); [assumption|].
  assert (65536 * 65537 <= coins_rows n * (coins_rows n + 1)) by nia. lia.
Qed.

Lemma coins_rows_unique n k :
  0 <= k -> k * (k + 1) <= 2 * n < (k + 1) * (k + 2) -> coins_rows n = k.
Proof.
  intros Hk Hkn. destruct (coins_rows_spec n) as [H0 H1]; [nia|].
  destruct (Z.lt_trichotomy (coins_rows n) k) as [Hlt|[Heq|Hgt]];
    [|assumption|]; nia.
Qed.

Lemma coins_rows_mono n n' : 0 <= n <= n' -> coins_rows n <= coins_rows n'.
Proof.
  intros Hn. unfold coins_rows.
  apply Z.div_le_mono; [lia|].
  pose proof (Z.sqrt_le_mono (8 * n + 1) (8 * n' + 1)). lia.
Qed.

Lemma coins_init_value n : 0 <= n <= INT_MAX -> coins_init n = coins_rows n + 1.
Proof.
  intros Hn. destruct (Z.eq_dec n 0) as [->|Hn0]; [vm_compute; reflexivity|].
  apply coins_init_exact. lia.
Qed.

Lemma arrangeCoins_value n fuel :
  0 <= n <= INT_MAX -> (2 <= fuel)%nat ->
  arrangeCoins fuel n = Some (coins_rows n).
Proof.
  intros Hn Hfuel. pose proof (coins_rows_range n Hn) as Hk.
  unfold arrangeCoins. rewrite (coins_loop_spec n fuel);
    [|assumption|rewrite coins_init_value by assumption; lia
     |rewrite coins_init_value by assumption; lia].
  cbn [option_map]. f_equal. apply to_int_id. unfold INT_MIN, INT_MAX. lia.
Qed.

(** ** mySqrt as a function of its argument *)

Lemma mySqrt_value x fuel :
  0 <= x <= INT_MAX -> (66 <= fuel)%nat -> mySqrt fuel x = Some (Z.sqrt x).
Proof.
  intros Hx Hfuel. destruct (mySqrt_stable x Hx) as (a & Hrun & _ & Hr).
  unfold mySqrt. rewrite (Hrun fuel Hfuel). cbn [option_map]. f_equal. exact Hr.
Qed.

(** ** mySqrt: the sequence of iterates *)

Lemma sqrt_iterates_sorted x (Hx : 1 <= x <= INT_MAX) fuel : forall a0 a,
  sqrt_inv x a0 -> sqrt_loop fuel x a0 = Some a ->
  StronglySorted (fun p q => (SF2R q < SF2R p)%R)
    (sqrt_divisors fuel x a0 ++ [a]) /\
  Forall (fun d => (IZR (Z.sqrt x) <= SF2R d <= SF2R a0)%R)
    (sqrt_divisors fuel x a0 ++ [a]) /\
  (SF2R a < IZR (Z.sqrt x) + 1)%R.
Proof.
  induction fuel as [|fuel IH]; intros a0 a Hinv Hrun; [discriminate|].
  cbn [sqrt_loop sqrt_divisors] in *.
  destruct (sqrt_cond x a0) eqn:Hc.
  - destruct (sqrt_step_spec x Hx a0 Hinv Hc) as (Hinv' & Hlt & _).
    destruct (IH _ _ Hinv' Hrun) as (Hsort & Hall & Hfin).
    cbn [app]. split; [|split; [|assumption]].
    + constructor; [assumption|].
      apply (Forall_impl _ (P := fun d =>
               (IZR (Z.sqrt x) <= SF2R d <= SF2R (sqrt_step x a0))%R));
        [|assumption]. intros d Hd. lra.
    + constructor; [destruct Hinv as [_ [Hlo _]]; lra|].
      apply (Forall_impl _ (P := fun d =>
               (IZR (Z.sqrt x) <= SF2R d <= SF2R (sqrt_step x a0))%R));
        [|assumption]. intros d Hd. lra.
  - injection Hrun as <-. cbn [app].
    pose proof (sqrt_cond_false x Hx a0 Hinv Hc) as Hlt.
    rewrite plus_IZR in Hlt. destruct Hinv as [_ [Hlo _]].
    split; [|split; [|assumption]].
    + constructor; [constructor|constructor].
    + constructor; [lra|constructor].
Qed.

(** ** Binary64: results that are not NaN *)

Lemma shr_m_nonneg m l e n :
  0 <= m -> 0 <= shr_m (fst (shr (shr_record_of_loc m l) e n)).
Proof.
  intros Hm. destruct n as [|p|p].
  - cbn [shr fst]. destruct (loc_of_shr_record_of_loc m l) as [_ ->]. exact Hm.
  - destruct (shr_spec m l e (Zpos p)) as [-> _]; [assumption|lia|].
    apply Z.div_pos; [assumption|]. apply Z.pow_pos_nonneg; lia.
  - cbn [shr fst]. destruct (loc_of_shr_record_of_loc m l) as [_ ->]. exact Hm.
Qed.

(** Rounding a non-negative mantissa gives a zero, a finite number or an
    infinity, of the sign it was given. *)
Lemma binary_round_aux_shape s m e l :
  0 <= m ->
  binary_round_aux prec emax s m e l = S754_zero s \/
  (exists m' e', binary_round_aux prec emax s m e l = S754_finite s m' e') \/
  binary_round_aux prec emax s m e l = S754_infinity s.
Proof.
  intros Hm. unfold binary_round_aux, shr_fexp.
  pose proof (shr_m_nonneg m l e
                (fexp prec emax (Zdigits2 m + e) - e) Hm) as H1.
  destruct (shr (shr_record_of_loc m l) e
              (fexp prec emax (Zdigits2 m + e) - e)) as [mrs1 e1].
  cbn [fst] in H1.
  set (M := round_nearest_even (shr_m mrs1) (loc_of_shr_record mrs1)).
  assert (HM : 0 <= M).
  { unfold M.
    destruct (round_nearest_even_cases (shr_m mrs1) (loc_of_shr_record mrs1))
      as [->|[-> _]]; lia. }
  pose proof (shr_m_nonneg M loc_Exact e1
                (fexp prec emax (Zdigits2 M + e1) - e1) HM) as H2.
  destruct (shr (shr_record_of_loc M loc_Exact) e1
              (fexp prec emax (Zdigits2 M + e1) - e1)) as [mrs2 e2].
  cbn [fst] in H2.
  destruct (shr_m mrs2) as [|p|p]; [left; reflexivity| |lia].
  destruct (e2 <=? emax - prec); [right; left; eauto|right; right; reflexivity].
Qed.

Lemma binary_round_aux_not_nan s m e l :
  0 <= m -> binary_round_aux prec emax s m e l <> S754_nan.
Proof.
  intros Hm. destruct (binary_round_aux_shape s m e l Hm)
    as [->|[(m' & e' & ->)| ->]]; discriminate.
Qed.

Lemma binary_normalize_not_nan m e sz :
  binary_normalize prec emax m e sz <> S754_nan.
Proof.
  destruct m as [|p|p]; cbn [binary_normalize]; [discriminate| |];
    unfold binary_round; destruct (shl_align p e _) as [mz ez];
    apply binary_round_aux_not_nan; lia.
Qed.

Lemma SFdiv_core_nonneg m1 e1 m2 e2 :
  0 <= fst (fst (SFdiv_core_binary prec emax (Zpos m1) e1 (Zpos m2) e2)).
Proof.
  unfold SFdiv_core_binary.
  set (s := e1 - e2 - _).
  set (m' := match s with Z.pos _ => Z.shiftl (Zpos m1) s | 0 => Zpos m1
             | Z.neg _ => 0 end).
  assert (Hm' : 0 <= m').
  { unfold m'. destruct s; try lia. apply Z.shiftl_nonneg. lia. }
  pose proof (Z_div_mod m' (Zpos m2) eq_refl) as Hdm.
  destruct (Z.div_eucl m' (Zpos m2)) as [q r]. cbn [fst]. nia.
Qed.

Lemma ddiv_finite_not_nan s1 m1 e1 s2 m2 e2 :
  ddiv (S754_finite s1 m1 e1) (S754_finite s2 m2 e2) <> S754_nan.
Proof.
  unfold ddiv. cbn [SFdiv].
  pose proof (SFdiv_core_nonneg m1 e1 m2 e2) as Hq.
  destruct (SFdiv_core_binary prec emax (Zpos m1) e1 (Zpos m2) e2) as [[q e] l].
  cbn [fst] in Hq. apply binary_round_aux_not_nan. exact Hq.
Qed.

Lemma dadd_finite_not_nan s1 m1 e1 b :
  b <> S754_nan -> dadd (S754_finite s1 m1 e1) b <> S754_nan.
Proof.
  intros Hb. unfold dadd. destruct b as [sb|sb| |sb mb eb]; cbn [SFadd];
    try discriminate; [contradiction|].
  apply binary_normalize_not_nan.
Qed.

(** The sign of a rounding goes to the result unchanged. *)
Lemma binary_round_aux_opp m e l :
  binary_round_aux prec emax true m e l
  = SFopp (binary_round_aux prec emax false m e l).
Proof.
  unfold binary_round_aux.
  destruct (shr_fexp prec emax m e l) as [mrs1 e1].
  destruct (shr_fexp prec emax _ e1 loc_Exact) as [mrs2 e2].
  destruct (shr_m mrs2); [reflexivity| |reflexivity].
  destruct (e2 <=? emax - prec); reflexivity.
Qed.

Lemma binary_round_opp m e :
  binary_round prec emax true m e = SFopp (binary_round prec emax false m e).
Proof.
  unfold binary_round. destruct (shl_align m e _) as [mz ez].
  apply binary_round_aux_opp.
Qed.

(** ** mySqrt on a negative argument *)

(** A negative [int] converts to a negative normal double. *)
Lemma of_Z_negative x :
  INT_MIN <= x <= -1 ->
  exists m e, of_Z x = S754_finite true m e /\
    2 ^ 52 <= Zpos m < 2 ^ 53 /\ -52 <= e <= -21.
Proof.
  unfold INT_MIN. intros Hx. destruct x as [|p|p]; try lia.
  unfold of_Z. cbn [binary_normalize]. rewrite binary_round_opp.
  destruct (of_Z_spec (Zpos p)) as [Hn Hv]; [lia|].
  cbn [binary_normalize] in Hn, Hv.
  assert (He : -52 <= expo (binary_round prec emax false p 0) <= -21).
  { split.
    - apply (normal_pos_expo_ge _ 0); [assumption|]. rewrite Hv.
      change (bpow 0) with 1%R. apply IZR_le. lia.
    - apply (normal_pos_expo_le _ 31); [assumption|].
      rewrite Hv, bpow_IZR by lia. apply IZR_le. lia. }
  destruct (normal_pos_inv _ Hn) as (m & e & Heq & Hm & _).
  rewrite Heq in *. cbn [expo] in He. exists m, e.
  split; [reflexivity|]. split; assumption.
Qed.

(** [x + 0.1] is a negative double when [x <= -1]. *)
Lemma threshold_negative x :
  INT_MIN <= x <= -1 ->
  exists m e, dadd (of_Z x) d0_1 = S754_finite true m e.
Proof.
  intros Hx. destruct (of_Z_negative x Hx) as (mx & ex & -> & Hmx & Hex).
  unfold dadd, d0_1. cbn [SFadd cond_Zopp].
  rewrite Z.min_r by lia.
  destruct (aligned_value mx ex (-56)) as (_ & _ & Hax); [lia|].
  destruct (aligned_value 7205759403792794 (-56) (-56)) as (_ & _ & Ha1); [lia|].
  rewrite Z.sub_diag, Z.mul_1_r in Ha1.
  set (ma := fst (shl_align mx ex (-56))) in *.
  set (mb := fst (shl_align 7205759403792794 (-56) (-56))) in *.
  assert (Hp4 : 2 ^ 4 <= 2 ^ (ex - -56) <= 2 ^ 35)
    by (split; apply Z.pow_le_mono_r; lia).
  assert (Hsum : - 2 ^ 88 < - Zpos ma + Zpos mb < 0).
  { rewrite Hax, Ha1. change (2 ^ 88) with (2 ^ 53 * 2 ^ 35).
    change (2 ^ 4) with 16 in Hp4. change (2 ^ 52) with 4503599627370496 in Hmx.
    nia. }
  destruct (- Zpos ma + Zpos mb) as [|p|p] eqn:Hs; try lia.
  cbn [binary_normalize]. rewrite binary_round_opp.
  assert (Hd : 1 <= Zpos (digits2_pos p) <= 88).
  { rewrite digits2_pos_log2. pose proof (Z.log2_nonneg (Zpos p)).
    assert (Z.log2 (Zpos p) < 88) by (apply Z.log2_lt_pow2; lia). lia. }
  destruct (binary_round_faithful p (-56)) as [Hn _]; try lia.
  destruct (normal_pos_inv _ Hn) as (m & e & -> & _ & _).
  exists m, e. reflexivity.
Qed.

Lemma two_eq : of_Z 2 = S754_finite false 4503599627370496 (-51).
Proof. reflexivity. Qed.

Lemma dmul_self_shape a :
  a <> S754_nan ->
  dmul a a = S754_zero false \/
  (exists m e, dmul a a = S754_finite false m e) \/
  dmul a a = S754_infinity false.
Proof.
  intros Ha. unfold dmul. destruct a as [s|s| |s m e]; cbn [SFmul].
  - left. destruct s; reflexivity.
  - right; right. destruct s; reflexivity.
  - contradiction.
  - replace (xorb s s) with false by (destruct s; reflexivity).
    apply binary_round_aux_shape. lia.
Qed.

(** On a negative argument the loop condition holds at every iterate, and
    the next iterate is again a number (possibly infinite). *)
Lemma sqrt_negative_step x a :
  INT_MIN <= x <= -1 -> a <> S754_nan ->
  sqrt_cond x a = true /\ sqrt_step x a <> S754_nan.
Proof.
  intros Hx Ha. split.
  - unfold sqrt_cond, dgt.
    destruct (threshold_negative x Hx) as (mt & et & ->).
    destruct (dmul_self_shape a Ha) as [->|[(m & e & ->)| ->]]; reflexivity.
  - unfold sqrt_step. rewrite two_eq.
    destruct (of_Z_negative x Hx) as (mx & ex & -> & _ & _).
    destruct a as [s|s| |s m e]; [| |contradiction|].
    + destruct s; cbn; discriminate.
    + destruct s; cbn; discriminate.
    + pose proof (ddiv_finite_not_nan true mx ex s m e) as HQ.
      pose proof (dadd_finite_not_nan s m e _ HQ) as HS.
      destruct (dadd (S754_finite s m e) (ddiv (S754_finite true mx ex)
                  (S754_finite s m e))) as [ss|ss| |ss ms es];
        [destruct ss; cbn; discriminate|destruct ss; cbn; discriminate
        |contradiction|].
      apply ddiv_finite_not_nan.
Qed.

Lemma sqrt_loop_negative x fuel : forall a,
  INT_MIN <= x <= -1 -> a <> S754_nan -> sqrt_loop fuel x a = None.
Proof.
  induction fuel as [|fuel IH]; intros a Hx Ha; [reflexivity|].
  cbn [sqrt_loop]. destruct (sqrt_negative_step x a Hx Ha) as [-> Hn].
  apply IH; assumption.
Qed.

(** The correction loop from any start. *)
Lemma coins_loop_min n fuel : forall i,
  0 <= n <= INT_MAX -> 0 <= i <= 2 ^ 17 ->
  Z.max 0 (i - coins_rows n) < Z.of_nat fuel ->
  coins_loop fuel n i = Some (Z.min i (coins_rows n)).
Proof.
  induction fuel as [|fuel IH]; intros i Hn Hi Hfuel; [lia|].
  pose proof (coins_rows_range n Hn) as Hk.
  cbn [coins_loop]. rewrite coins_cond_spec by assumption.
  destruct (Z.ltb_spec (coins_rows n) i) as [Hlt|Hge].
  - rewrite to_long_id by lia. rewrite IH by lia. f_equal. lia.
  - f_equal. lia.
Qed.

(** ** mySqrt: the speed of convergence *)

Lemma sqrt_excess_nth x (Hx : 1 <= x <= INT_MAX) k : forall fuel a0 d,
  sqrt_inv x a0 -> nth_error (sqrt_divisors fuel x a0) k = Some d ->
  (SF2R d * SF2R d - IZR x <= (SF2R a0 * SF2R a0 - IZR x) / 2 ^ k)%R /\
  (IZR x + 1 / 16 < SF2R d * SF2R d)%R.
Proof.
  induction k as [|k IH]; intros fuel a0 d Hinv Hnth;
    (destruct fuel as [|fuel]; [discriminate|]);
    cbn [sqrt_divisors] in Hnth;
    destruct (sqrt_cond x a0) eqn:Hc; try discriminate;
    cbn [nth_error] in Hnth.
  - injection Hnth as <-. split; [cbn [pow]; lra|].
    apply sqrt_cond_true; assumption.
  - destruct (sqrt_step_spec x Hx a0 Hinv Hc) as (Hinv' & _ & Hhalf).
    destruct (IH _ _ _ Hinv' Hnth) as [Hd Hsq]. split; [|assumption].
    assert (Hp : (0 < 2 ^ k)%R) by (apply pow_lt; lra).
    cbn [pow].
    replace ((SF2R a0 * SF2R a0 - IZR x) / (2 * 2 ^ k))%R
      with ((SF2R a0 * SF2R a0 - IZR x) / 2 / 2 ^ k)%R by (field; lra).
    apply Rle_trans with (1 := Hd).
    apply Rmult_le_compat_r; [|assumption].
    left. apply Rinv_0_lt_compat. assumption.
Qed.

(** * Further properties of the three functions *)

(** X1: whatever the oracle answers (any function [guess], also one that is
    inconsistent or answers outside [-1, 0, 1]), for [1 <= n < 2^31-1] every
    state at the head of the loop has [1 <= left <= n+2] and
    [0 <= right <= n], the 64-bit sum [left+right+1] does not wrap, and the
    current candidate and every candidate passed to [guess] lie in
    [1 .. n+1]: the conversion of [c] to [int] at the call never
    truncates. *)
Theorem guessNumber_candidates_any_oracle guess n st :
  1 <= n < INT_MAX -> guess_reach guess n st ->
  1 <= left st <= n + 2 /\ 0 <= right st <= n /\
  mid_sum (left st) (right st) = left st + right st + 1 /\
  1 <= c st <= n + 1 /\
  Forall (fun a => 1 <= a <= n + 1) (calls st).
Proof.
  intros Hn Hreach.
  assert (Hinv : guess_inv_any n st).
  { induction Hreach as [|st Hreach IH Hg].
    - apply guess_init_inv_any; assumption.
    - apply guess_step_inv_any; assumption. }
  destruct Hinv as (Hl & Hr & Hlr & Hc & Hcalls). unfold INT_MAX in Hn.
  destruct (midpoint_exact (left st) (right st)) as [Hsum _]; try lia.
  repeat split; try lia; try assumption; rewrite Hc; lia_div.
Qed.

Lemma guessNumber_candidates_any_oracle_witness :
  1 <= 5 < INT_MAX /\
  guess_reach (fun _ => 1) 5
    (guess_step (fun _ => 1) (guess_init (fun _ => 1) 5)) /\
  Forall (fun a => 1 <= a <= 5 + 1)
    (calls (guess_step (fun _ => 1) (guess_init (fun _ => 1) 5))).
Proof.
  assert (Hn : 1 <= 5 < INT_MAX) by (unfold INT_MAX; lia).
  assert (Hreach : guess_reach (fun _ => 1) 5
                     (guess_step (fun _ => 1) (guess_init (fun _ => 1) 5))).
  { apply reach_step; [apply reach_init|]. vm_compute. discriminate. }
  split; [exact Hn|]. split; [exact Hreach|].
  pose proof (guessNumber_candidates_any_oracle (fun _ => 1) 5 _ Hn Hreach)
    as (_ & _ & _ & _ & Hcalls).
  exact Hcalls.
Defined.

(** X2: whatever the oracle, a value returned by [guessNumber] is one on
    which the oracle answers [0]: the function returns only the candidate of
    its last call, and only when that call answered [0]. *)
Theorem guessNumber_answer_confirmed guess fuel n r :
  guessNumber guess fuel n = Some r -> guess r = 0.
Proof.
  intros Hrun. exact (guess_run_answer guess fuel n r Hrun).
Qed.

Lemma guessNumber_answer_confirmed_witness :
  guessNumber (oracle 3) 4 5 = Some 3 /\ oracle 3 3 = 0.
Proof.
  assert (Hrun : guessNumber (oracle 3) 4 5 = Some 3) by (vm_compute; reflexivity).
  split; [exact Hrun|].
  exact (guessNumber_answer_confirmed (oracle 3) 4 5 3 Hrun).
Defined.

(** X3: with an oracle that never answers [0], [1] or [-1], no branch of
    the loop body is taken: [left], [right] and [c] keep their initial
    values at every state of the run, every call asks the same first
    candidate, and no amount of fuel yields a result: the loop does not
    end. *)
Theorem guessNumber_invalid_answers guess n fuel st :
  (forall z, guess z <> 0 /\ guess z <> 1 /\ guess z <> -1) ->
  guess_reach guess n st ->
  guessNumber guess fuel n = None /\
  left st = 1 /\ right st = to_long n /\ c st = midpoint 1 (to_long n) /\
  Forall (fun a => a = to_int (midpoint 1 (to_long n))) (calls st).
Proof.
  intros Hbad Hreach. split.
  - destruct (guessNumber guess fuel n) as [r|] eqn:Hrun; [|reflexivity].
    apply guess_run_answer in Hrun.
    destruct (Hbad r) as [H0 _]. contradiction.
  - induction Hreach as [|st Hreach IH Hg].
    + cbn. repeat split. constructor; [reflexivity|constructor].
    + destruct IH as (Hl & Hr & Hc & Hcalls).
      pose proof (guess_reach_answer guess n st Hreach) as Hans.
      destruct (Hbad (to_int (c st))) as (_ & H1 & Hm1).
      unfold guess_step.
      destruct (Z.eqb_spec (g st) 1) as [E|_]; [congruence|].
      destruct (Z.eqb_spec (g st) (-1)) as [E|_]; [congruence|].
      cbn. repeat split; try assumption.
      apply Forall_app; split; [assumption|].
      constructor; [rewrite Hc; reflexivity|constructor].
Qed.

Lemma guessNumber_invalid_answers_witness :
  (forall z : Z, 2 <> 0 /\ 2 <> 1 /\ 2 <> -1) /\
  guess_reach (fun _ => 2) 5 (guess_init (fun _ => 2) 5) /\
  guessNumber (fun _ => 2) 7 5 = None.
Proof.
  assert (Hbad : forall z : Z, 2 <> 0 /\ 2 <> 1 /\ 2 <> -1)
    by (intros _; repeat split; discriminate).
  assert (Hreach : guess_reach (fun _ => 2) 5 (guess_init (fun _ => 2) 5))
    by apply reach_init.
  split; [exact Hbad|]. split; [exact Hreach|].
  exact (proj1 (guessNumber_invalid_answers (fun _ => 2) 5 7 _ Hbad Hreach)).
Defined.

(** X4: for a secret [s] in [1 .. n] no candidate is passed to [guess]
    twice: at every state of the run the list of calls has no duplicates,
    and every candidate asked before the current one lies outside the
    current interval [left .. right]; the calls of a finished run have no
    duplicates either. *)
Theorem guessNumber_no_repeated_candidate n s st :
  1 <= n <= INT_MAX -> 1 <= s <= n -> guess_reach (oracle s) n st ->
  NoDup (calls st) /\
  Forall (fun a => a = c st \/ a < left st \/ right st < a) (calls st) /\
  (forall fuel st', guess_loop (oracle s) fuel st = Some st' ->
     NoDup (calls st')).
Proof.
  intros Hn Hs Hreach.
  destruct (guess_fresh_reach n s st Hn Hs Hreach) as [Hnd Hout].
  split; [exact Hnd|]. split; [exact Hout|].
  intros fuel st' Hrun.
  apply (guess_fresh_reach n s st' Hn Hs).
  apply (guess_loop_reach _ _ fuel st); assumption.
Qed.

Lemma guessNumber_no_repeated_candidate_witness :
  1 <= 10 <= INT_MAX /\ 1 <= 10 <= 10 /\
  guess_reach (oracle 10) 10 (guess_step (oracle 10) (guess_init (oracle 10) 10)) /\
  NoDup (calls (guess_step (oracle 10) (guess_init (oracle 10) 10))).
Proof.
  assert (Hn : 1 <= 10 <= INT_MAX) by (unfold INT_MAX; lia).
  assert (Hs : 1 <= 10 <= 10) by lia.
  assert (Hreach : guess_reach (oracle 10) 10
                     (guess_step (oracle 10) (guess_init (oracle 10) 10))).
  { apply reach_step; [apply reach_init|]. vm_compute. discriminate. }
  split; [exact Hn|]. split; [exact Hs|]. split; [exact Hreach|].
  exact (proj1 (guessNumber_no_repeated_candidate 10 10 _ Hn Hs Hreach)).
Defined.

(** X5: the bound of [floor(log2 n) + 1] calls is attained: for every
    [1 <= n <= 2^31-1], with the secret [1] the run ends at the candidate
    [1] after exactly [floor(log2 n) + 1] calls of [guess]. *)
Theorem guessNumber_worst_case n :
  1 <= n <= INT_MAX ->
  exists st,
    guess_run (oracle 1) (guess_fuel n) n = Some st /\
    c st = 1 /\
    Z.of_nat (length (calls st)) = Z.log2 n + 1.
Proof.
  intros Hn.
  assert (Hs : 1 <= 1 <= n) by lia.
  pose proof (guess_init_inv n 1 Hn Hs) as Hinv.
  assert (Hr : right (guess_init (oracle 1) n) = n).
  { cbn. apply to_long_id. unfold INT_MAX in Hn. lia. }
  pose proof (Z.log2_nonneg n) as Hlog.
  destruct (guess_loop_first n 1 (guess_fuel n) (guess_init (oracle 1) n))
    as (st & Hrun & Hcalls); [lia|assumption|reflexivity| |].
  { rewrite Hr. change (left (guess_init (oracle 1) n)) with 1.
    replace (n - 1 + 1) with n by lia. unfold guess_fuel. lia. }
  exists st. split; [exact Hrun|].
  destruct (guess_run_spec n 1 (guess_fuel n) Hn Hs (Nat.le_refl _))
    as (st2 & Hrun2 & _ & Hc & _).
  unfold guess_run in Hrun2. rewrite Hrun in Hrun2. injection Hrun2 as <-.
  split; [exact Hc|].
  rewrite Hr in Hcalls. change (left (guess_init (oracle 1) n)) with 1 in Hcalls.
  replace (n - 1 + 1) with n in Hcalls by lia.
  change (length (calls (guess_init (oracle 1) n))) with 1%nat in Hcalls. lia.
Qed.

Lemma guessNumber_worst_case_witness :
  1 <= 8 <= INT_MAX /\
  exists st,
    guess_run (oracle 1) (guess_fuel 8) 8 = Some st /\
    c st = 1 /\
    Z.of_nat (length (calls st)) = Z.log2 8 + 1.
Proof.
  assert (Hn : 1 <= 8 <= INT_MAX) by (unfold INT_MAX; lia).
  split; [exact Hn|]. exact (guessNumber_worst_case 8 Hn).
Defined.

(** X6: when the secret is below [1], or above [n+1] (and at most
    [2^31-1]), [guessNumber n] yields no result for any amount of fuel: the
    loop does not end. *)
Theorem guessNumber_secret_out_of_range n s fuel :
  1 <= n <= INT_MAX -> s < 1 \/ n + 1 < s <= INT_MAX ->
  guessNumber (oracle s) fuel n = None.
Proof.
  intros Hn Hs. unfold guessNumber, guess_run.
  assert (Hr : to_long n = n) by (apply to_long_id; unfold INT_MAX in Hn; lia).
  assert (Hm : midpoint 1 n = (1 + n + 1) / 2)
    by (apply midpoint_exact; unfold INT_MAX in Hn; lia).
  assert (Hc : 1 <= (1 + n + 1) / 2 <= n) by lia_div.
  assert (Hi : to_int ((1 + n + 1) / 2) = (1 + n + 1) / 2)
    by (apply to_int_id; unfold INT_MIN; lia).
  assert (Hinit : guess_init (oracle s) n =
            mk_gstate 1 n ((1 + n + 1) / 2) (oracle s ((1 + n + 1) / 2))
              [(1 + n + 1) / 2]).
  { unfold guess_init. rewrite Hr, Hm, Hi. reflexivity. }
  rewrite Hinit. unfold oracle.
  destruct Hs as [Hlo|Hhi].
  - rewrite (guess_loop_below n s); [reflexivity|assumption|assumption| | | |];
      cbn [left right c g]; try reflexivity; try lia.
    destruct (Z.gtb_spec s ((1 + n + 1) / 2)); [lia|].
    destruct (Z.ltb_spec s ((1 + n + 1) / 2)); [reflexivity|lia].
  - rewrite (guess_loop_above n s); [reflexivity|lia|assumption| | | |];
      cbn [left right c g]; try reflexivity; try lia.
    destruct (Z.gtb_spec s ((1 + n + 1) / 2)); [reflexivity|lia].
Qed.

Lemma guessNumber_secret_out_of_range_witness :
  1 <= 5 <= INT_MAX /\ (7 < 1 \/ 5 + 1 < 7 <= INT_MAX) /\
  guessNumber (oracle 7) 20 5 = None.
Proof.
  assert (Hn : 1 <= 5 <= INT_MAX) by (unfold INT_MAX; lia).
  assert (Hs : 7 < 1 \/ 5 + 1 < 7 <= INT_MAX) by (unfold INT_MAX; lia).
  split; [exact Hn|]. split; [exact Hs|].
  exact (guessNumber_secret_out_of_range 5 7 20 Hn Hs).
Defined.

(** X7: the upper midpoint reaches one past the bound: for
    [1 <= n < 2^31-1] and the secret [n+1], [guessNumber n] returns [n+1],
    a value outside [1 .. n]. *)
Theorem guessNumber_secret_past_bound n fuel :
  1 <= n < INT_MAX -> (guess_fuel (n + 1) <= fuel)%nat ->
  guessNumber (oracle (n + 1)) fuel n = Some (n + 1).
Proof.
  intros Hn Hfuel. unfold guessNumber, guess_run.
  assert (Hr : to_long n = n) by (apply to_long_id; unfold INT_MAX in Hn; lia).
  assert (Hm : midpoint 1 n = (1 + n + 1) / 2)
    by (apply midpoint_exact; unfold INT_MAX in Hn; lia).
  assert (Hc : 1 <= (1 + n + 1) / 2 <= n) by lia_div.
  assert (Hi : to_int ((1 + n + 1) / 2) = (1 + n + 1) / 2)
    by (apply to_int_id; unfold INT_MIN; lia).
  assert (Hinit : guess_init (oracle (n + 1)) n =
            mk_gstate 1 n ((1 + n + 1) / 2) (oracle (n + 1) ((1 + n + 1) / 2))
              [(1 + n + 1) / 2]).
  { unfold guess_init. rewrite Hr, Hm, Hi. reflexivity. }
  destruct (guess_loop_past n fuel (guess_init (oracle (n + 1)) n) Hn)
    as (st & Hrun & Hst); rewrite ?Hinit; cbn [left right c g];
    try reflexivity; try lia.
  { pose proof (Z.log2_nonneg (n + 1)). unfold guess_fuel in Hfuel.
    replace (n + 2 - 1) with (n + 1) by lia. lia. }
  rewrite Hinit in Hrun. rewrite Hrun. cbn [option_map]. rewrite Hst.
  f_equal. apply to_int_id. unfold INT_MIN. lia.
Qed.

Lemma guessNumber_secret_past_bound_witness :
  1 <= 5 < INT_MAX /\ (guess_fuel (5 + 1) <= 3)%nat /\
  guessNumber (oracle (5 + 1)) 3 5 = Some (5 + 1).
Proof.
  assert (Hn : 1 <= 5 < INT_MAX) by (unfold INT_MAX; lia).
  assert (Hfuel : (guess_fuel (5 + 1) <= 3)%nat) by (vm_compute; lia).
  split; [exact Hn|]. split; [exact Hfuel|].
  exact (guessNumber_secret_past_bound 5 3 Hn Hfuel).
Defined.

(** X8: for every [0 <= n <= 2^31-1] the floating-point estimate is
    exactly one more than the number of complete rows, so the loop test
    holds at the estimate and fails after one decrement: the loop body runs
    exactly once (one unit of fuel is not enough, two always are). *)
Theorem arrangeCoins_single_correction n :
  0 <= n <= INT_MAX ->
  coins_init n = coins_rows n + 1 /\
  coins_cond n (coins_init n) = true /\
  coins_cond n (to_long (coins_init n - 1)) = false /\
  arrangeCoins 1 n = None /\
  (forall fuel, (2 <= fuel)%nat -> arrangeCoins fuel n = Some (coins_rows n)).
Proof.
  intros Hn. pose proof (coins_rows_range n Hn) as Hk.
  pose proof (coins_init_value n Hn) as Hi.
  assert (Hc1 : coins_cond n (coins_init n) = true).
  { rewrite Hi, coins_cond_spec by lia. apply Z.ltb_lt. lia. }
  assert (Hc0 : coins_cond n (to_long (coins_init n - 1)) = false).
  { rewrite Hi, to_long_id by lia. rewrite coins_cond_spec by lia.
    apply Z.ltb_ge. lia. }
  split; [exact Hi|]. split; [exact Hc1|]. split; [exact Hc0|]. split.
  - unfold arrangeCoins. cbn [coins_loop]. rewrite Hc1. reflexivity.
  - intros fuel Hfuel. apply arrangeCoins_value; assumption.
Qed.

Lemma arrangeCoins_single_correction_witness :
  0 <= 8 <= INT_MAX /\
  coins_init 8 = coins_rows 8 + 1 /\ arrangeCoins 1 8 = None.
Proof.
  assert (Hn : 0 <= 8 <= INT_MAX) by (unfold INT_MAX; lia).
  split; [exact Hn|].
  pose proof (arrangeCoins_single_correction 8 Hn) as (Hi & _ & _ & H1 & _).
  split; [exact Hi|exact H1].
Defined.

(** X9: [arrangeCoins] is monotone on [0 .. 2^31-1], and its results lie
    in [0 .. 65535]. *)
Theorem arrangeCoins_monotone n n' :
  0 <= n <= n' -> n' <= INT_MAX ->
  exists k k',
    arrangeCoins 2 n = Some k /\ arrangeCoins 2 n' = Some k' /\
    0 <= k <= k' /\ k' <= 65535.
Proof.
  intros Hn Hn'.
  assert (H1 : 0 <= n <= INT_MAX) by lia.
  assert (H2 : 0 <= n' <= INT_MAX) by lia.
  exists (coins_rows n), (coins_rows n').
  split; [apply arrangeCoins_value; [assumption|lia]|].
  split; [apply arrangeCoins_value; [assumption|lia]|].
  pose proof (coins_rows_range n H1). pose proof (coins_rows_range n' H2).
  pose proof (coins_rows_mono n n' Hn). lia.
Qed.

Lemma arrangeCoins_monotone_witness :
  0 <= 5 <= 8 /\ 8 <= INT_MAX /\
  exists k k',
    arrangeCoins 2 5 = Some k /\ arrangeCoins 2 8 = Some k' /\
    0 <= k <= k' /\ k' <= 65535.
Proof.
  assert (Hn : 0 <= 5 <= 8) by lia.
  assert (Hn' : 8 <= INT_MAX) by (unfold INT_MAX; lia).
  split; [exact Hn|]. split; [exact Hn'|].
  exact (arrangeCoins_monotone 5 8 Hn Hn').
Defined.

(** X10: [arrangeCoins] inverts the triangular numbers: on
    [k*(k+1)/2 + j] with [0 <= j <= k] (a full staircase of [k] rows and
    [j] coins left over) it returns [k]. *)
Theorem arrangeCoins_triangular k j :
  0 <= k -> 0 <= j <= k -> k * (k + 1) / 2 + j <= INT_MAX ->
  arrangeCoins 2 (k * (k + 1) / 2 + j) = Some k.
Proof.
  intros Hk Hj Hn. pose proof (product_even k) as He.
  rewrite arrangeCoins_value by (try lia; nia).
  f_equal. apply coins_rows_unique; [assumption|]. nia.
Qed.

Lemma arrangeCoins_triangular_witness :
  0 <= 3 /\ 0 <= 2 <= 3 /\ 3 * (3 + 1) / 2 + 2 <= INT_MAX /\
  arrangeCoins 2 (3 * (3 + 1) / 2 + 2) = Some 3.
Proof.
  assert (Hk : 0 <= 3) by lia.
  assert (Hj : 0 <= 2 <= 3) by lia.
  assert (Hn : 3 * (3 + 1) / 2 + 2 <= INT_MAX) by (vm_compute; discriminate).
  split; [exact Hk|]. split; [exact Hj|]. split; [exact Hn|].
  exact (arrangeCoins_triangular 3 2 Hk Hj Hn).
Defined.

(** X11: the correction loop alone, started at any [0 <= i <= 2^17],
    returns [min i k] for [k] the number of complete rows: it only ever
    decrements, so a start below [k] is returned unchanged and a start at or
    above [k] comes down to [k]; [max 0 (i-k) + 1] units of fuel are
    enough. *)
Theorem arrangeCoins_loop_is_min n i fuel :
  0 <= n <= INT_MAX -> 0 <= i <= 2 ^ 17 ->
  Z.max 0 (i - coins_rows n) < Z.of_nat fuel ->
  coins_loop fuel n i = Some (Z.min i (coins_rows n)) /\
  (i < coins_rows n -> coins_loop fuel n i = Some i) /\
  (coins_rows n <= i -> coins_loop fuel n i = Some (coins_rows n)).
Proof.
  intros Hn Hi Hfuel. pose proof (coins_loop_min n fuel i Hn Hi Hfuel) as H.
  split; [exact H|]. split; intros Hik; rewrite H; f_equal; lia.
Qed.

Lemma arrangeCoins_loop_is_min_witness :
  0 <= 8 <= INT_MAX /\ 0 <= 10 <= 2 ^ 17 /\
  Z.max 0 (10 - coins_rows 8) < Z.of_nat 8 /\
  coins_loop 8 8 10 = Some (Z.min 10 (coins_rows 8)).
Proof.
  assert (Hn : 0 <= 8 <= INT_MAX) by (unfold INT_MAX; lia).
  assert (Hi : 0 <= 10 <= 2 ^ 17) by lia.
  assert (Hfuel : Z.max 0 (10 - coins_rows 8) < Z.of_nat 8)
    by (vm_compute; reflexivity).
  split; [exact Hn|]. split; [exact Hi|]. split; [exact Hfuel|].
  exact (proj1 (arrangeCoins_loop_is_min 8 10 8 Hn Hi Hfuel)).
Defined.

(** X12: [mySqrt] is monotone on [0 .. 2^31-1], and its results lie in
    [0 .. 46340]. *)
Theorem mySqrt_monotone x y :
  0 <= x <= y -> y <= INT_MAX ->
  exists rx ry,
    mySqrt 66 x = Some rx /\ mySqrt 66 y = Some ry /\
    0 <= rx <= ry /\ ry <= 46340.
Proof.
  intros Hx Hy. exists (Z.sqrt x), (Z.sqrt y).
  split; [apply mySqrt_value; lia|]. split; [apply mySqrt_value; lia|].
  pose proof (Z.sqrt_nonneg x). pose proof (Z.sqrt_le_mono x y (proj2 Hx)).
  pose proof (Z.sqrt_le_mono y INT_MAX Hy) as Hmax.
  change (Z.sqrt INT_MAX) with 46340 in Hmax. lia.
Qed.

Lemma mySqrt_monotone_witness :
  0 <= 4 <= 8 /\ 8 <= INT_MAX /\
  exists rx ry,
    mySqrt 66 4 = Some rx /\ mySqrt 66 8 = Some ry /\
    0 <= rx <= ry /\ ry <= 46340.
Proof.
  assert (Hx : 0 <= 4 <= 8) by lia.
  assert (Hy : 8 <= INT_MAX) by (unfold INT_MAX; lia).
  split; [exact Hx|]. split; [exact Hy|].
  exact (mySqrt_monotone 4 8 Hx Hy).
Defined.

(** X13: [mySqrt] inverts squaring: on [r*r + j] with [0 <= j <= 2*r]
    (so below the next square) it returns [r]; in particular
    [mySqrt (r*r) = r]. *)
Theorem mySqrt_of_square r j :
  0 <= r -> 0 <= j <= 2 * r -> r * r + j <= INT_MAX ->
  mySqrt 66 (r * r + j) = Some r.
Proof.
  intros Hr Hj Hx. rewrite mySqrt_value by (try lia; nia).
  f_equal. apply Z.sqrt_unique. nia.
Qed.

Lemma mySqrt_of_square_witness :
  0 <= 3 /\ 0 <= 2 <= 2 * 3 /\ 3 * 3 + 2 <= INT_MAX /\
  mySqrt 66 (3 * 3 + 2) = Some 3.
Proof.
  assert (Hr : 0 <= 3) by lia.
  assert (Hj : 0 <= 2 <= 2 * 3) by lia.
  assert (Hx : 3 * 3 + 2 <= INT_MAX) by (unfold INT_MAX; lia).
  split; [exact Hr|]. split; [exact Hj|]. split; [exact Hx|].
  exact (mySqrt_of_square 3 2 Hr Hj Hx).
Defined.

(** X14: for every [0 <= x <= 2^31-1] the doubles taken by [a] (the
    divisors of the run followed by the final value) are strictly
    decreasing, all lie between [floor(sqrt x)] and the start [1 + x/2],
    and the final one is below [floor(sqrt x) + 1]. *)
Theorem mySqrt_iterates_decrease x :
  0 <= x <= INT_MAX ->
  exists a,
    sqrt_loop 66 x (sqrt_init x) = Some a /\
    StronglySorted (fun p q => (SF2R q < SF2R p)%R)
      (sqrt_divisors 66 x (sqrt_init x) ++ [a]) /\
    Forall (fun d => (IZR (Z.sqrt x) <= SF2R d <= IZR (1 + x / 2))%R)
      (sqrt_divisors 66 x (sqrt_init x) ++ [a]) /\
    (SF2R a < IZR (Z.sqrt x) + 1)%R.
Proof.
  intros Hx. destruct (Z.eq_dec x 0) as [->|Hx0].
  - exists (S754_finite false 4503599627370496 (-54)).
    split; [vm_compute; reflexivity|].
    assert (Hd : sqrt_divisors 66 0 (sqrt_init 0) =
              [S754_finite false 4503599627370496 (-52);
               S754_finite false 4503599627370496 (-53)])
      by (vm_compute; reflexivity).
    rewrite Hd. cbn [app]. change (Z.sqrt 0) with 0. change (1 + 0 / 2) with 1.
    pose proof (bpow_inv_IZR (-52) ltac:(lia)) as H1.
    change (2 ^ (- -52)) with 4503599627370496 in H1.
    assert (H2 : (bpow (-52) = 2 * bpow (-53))%R).
    { replace (-52) with (-53 + 1) by lia.
      rewrite bpow_add, (bpow_IZR 1) by lia. change (2 ^ 1) with 2. ring. }
    assert (H3 : (bpow (-53) = 2 * bpow (-54))%R).
    { replace (-53) with (-54 + 1) by lia.
      rewrite bpow_add, (bpow_IZR 1) by lia. change (2 ^ 1) with 2. ring. }
    assert (V1 : SF2R (S754_finite false 4503599627370496 (-52)) = 1%R)
      by (cbn [SF2R cond_Zopp]; lra).
    assert (V2 : SF2R (S754_finite false 4503599627370496 (-53)) = (1 / 2)%R)
      by (cbn [SF2R cond_Zopp]; lra).
    assert (V3 : SF2R (S754_finite false 4503599627370496 (-54)) = (1 / 4)%R)
      by (cbn [SF2R cond_Zopp]; lra).
    split; [|split; [|rewrite V3; lra]];
      repeat (constructor; rewrite ?V1, ?V2, ?V3; try lra).
  - assert (Hx1 : 1 <= x <= INT_MAX) by lia.
    destruct (sqrt_loop_total x Hx) as (a & Hrun & _ & _).
    destruct (sqrt_init_spec x Hx1) as [Hinv Hval].
    destruct (sqrt_iterates_sorted x Hx1 66 _ a Hinv Hrun) as (Hs & Ha & Hf).
    rewrite Hval in Ha. exists a. auto.
Qed.

Lemma mySqrt_iterates_decrease_witness :
  0 <= 8 <= INT_MAX /\
  exists a,
    sqrt_loop 66 8 (sqrt_init 8) = Some a /\
    StronglySorted (fun p q => (SF2R q < SF2R p)%R)
      (sqrt_divisors 66 8 (sqrt_init 8) ++ [a]) /\
    Forall (fun d => (IZR (Z.sqrt 8) <= SF2R d <= IZR (1 + 8 / 2))%R)
      (sqrt_divisors 66 8 (sqrt_init 8) ++ [a]) /\
    (SF2R a < IZR (Z.sqrt 8) + 1)%R.
Proof.
  assert (Hx : 0 <= 8 <= INT_MAX) by (unfold INT_MAX; lia).
  split; [exact Hx|]. exact (mySqrt_iterates_decrease 8 Hx).
Defined.

(** X15: on a negative argument [-2^31 <= x <= -1] the loop test
    [a*a > x + 0.1] holds for every double [a] that is not NaN, and
    [mySqrt] yields no result for any amount of fuel: the loop does not
    end. *)
Theorem mySqrt_negative_diverges x fuel :
  INT_MIN <= x <= -1 ->
  mySqrt fuel x = None /\
  (forall a, a <> S754_nan -> sqrt_cond x a = true).
Proof.
  intros Hx. split.
  - unfold mySqrt. rewrite sqrt_loop_negative; [reflexivity|assumption|].
    apply binary_normalize_not_nan.
  - intros a Ha. apply (sqrt_negative_step x a Hx Ha).
Qed.

Lemma mySqrt_negative_diverges_witness :
  INT_MIN <= -1 <= -1 /\ mySqrt 100 (-1) = None.
Proof.
  assert (Hx : INT_MIN <= -1 <= -1) by (unfold INT_MIN; lia).
  split; [exact Hx|].
  exact (proj1 (mySqrt_negative_diverges (-1) 100 Hx)).
Defined.

(** X16: for [1 <= x <= 2^31-1] the excess [a*a - x] of the [k]-th iterate
    that enters the loop body is above [1/16] and at most the initial
    excess [(1 + x/2)^2 - x] divided by [2^k]: the iteration converges at
    least geometrically in double arithmetic. *)
Theorem mySqrt_excess_halves x k d :
  1 <= x <= INT_MAX ->
  nth_error (sqrt_divisors 66 x (sqrt_init x)) k = Some d ->
  (IZR x + 1 / 16 < SF2R d * SF2R d)%R /\
  (SF2R d * SF2R d - IZR x
   <= (IZR (1 + x / 2) * IZR (1 + x / 2) - IZR x) / 2 ^ k)%R.
Proof.
  intros Hx Hnth. destruct (sqrt_init_spec x Hx) as [Hinv Hval].
  destruct (sqrt_excess_nth x Hx k 66 _ d Hinv Hnth) as [Hd Hsq].
  rewrite Hval in Hd. split; assumption.
Qed.

Lemma mySqrt_excess_halves_witness :
  1 <= 8 <= INT_MAX /\
  nth_error (sqrt_divisors 66 8 (sqrt_init 8)) 1
    = Some (S754_finite false 7430939385161318 (-51)) /\
  (SF2R (S754_finite false 7430939385161318 (-51))
   * SF2R (S754_finite false 7430939385161318 (-51)) - IZR 8
   <= (IZR (1 + 8 / 2) * IZR (1 + 8 / 2) - IZR 8) / 2 ^ 1)%R.
Proof.
  assert (Hx : 1 <= 8 <= INT_MAX) by (unfold INT_MAX; lia).
  assert (Hd : nth_error (sqrt_divisors 66 8 (sqrt_init 8)) 1
               = Some (S754_finite false 7430939385161318 (-51)))
    by (vm_compute; reflexivity).
  split; [exact Hx|]. split; [exact Hd|].
  exact (proj2 (mySqrt_excess_halves 8 1 _ Hx Hd)).
Defined.
